(** * NostrRoom: listener registry, bounded cache, ingestion and publishing

    A shallow embedding of the [NostrRoom] class (the room / event pipeline
    of react-nostr-auth) and the properties of its event pipeline.

    Conventions of the embedding.
    - The room object is a record; every method is a computation in a small
      state-and-exception monad [M] over the room, the application's own
      state and a trace of the calls the room makes to the outside.
    - A JavaScript [Function] stored in the registry is a reference.  The
      functions the application registers are numbered ([UserFn u]); the
      closure that [once] allocates is [OnceFn], stamped with an allocation
      counter so that two calls of [once] give two distinct references.
    - What a registered function does when it is called is a [Prog]: a
      finite tree of calls to the room's synchronous public methods.  A
      listener may call [emit] itself, so dispatch is re-entrant and the
      interpreter is bounded by a nesting depth ([fuel]).
      A listener reads the whole room but writes only what the methods
      write: the registry and [connected].  The closures of [once] are
      private to the room, so a listener registers and removes its own
      functions only.
    - [this.events] is a plain object: a name is looked up along its
      prototype chain, so a name that the object inherits ("toString",
      "constructor", "__proto__", ...) does not give a Set, and the methods
      that use it as one throw a TypeError.
    - There is one thread of control.  An [async] method runs up to its
      first [await] when it is called and resumes in a job of its own, once
      the awaited promise has settled; other jobs may run in between.  The
      handler of inbound events is given in its two parts
      ([_eventHandler_called], [_eventHandler_resumed]), and the jobs of
      several handlers interleave as the transport and the cipher make
      them ([arrivals], [performs]); [_eventHandler] is the handler whose
      parts follow each other directly.  [pub] and [_subscribe] are given
      as run in one go: nothing else happens to the room while they wait.
      An [await] is a call to the host that either succeeds or fails.
    - The numbers that the room adds and prints ([now()], [expiration]) are
      IEEE 754 doubles; sizes, kinds and timestamps that it only compares
      or passes on are integers.
    - The collaborators that are not part of the class (transport client,
      cipher, signed-event view, JSON codec, util.js, the digest of
      buff-utils) are parameters.
    - [within] relies on a timer and is not part of the embedding. *)

From Stdlib Require Import ZArith Ascii DecimalString Floats.
From stdpp Require Import base strings list gmap.

(** ** Values *)

(** [Buff]: a byte buffer of the buff-utils library. *)
Definition Buff : Type := list Byte.byte.

(** [Buff.str(s)]: the bytes of the string. *)
Definition Buff_str (s : string) : Buff := String.list_byte_of_string s.

Definition hex_digit (n : N) : ascii :=
  match n with
  | 0%N => "0" | 1%N => "1" | 2%N => "2" | 3%N => "3"
  | 4%N => "4" | 5%N => "5" | 6%N => "6" | 7%N => "7"
  | 8%N => "8" | 9%N => "9" | 10%N => "a" | 11%N => "b"
  | 12%N => "c" | 13%N => "d" | 14%N => "e" | _ => "f"
  end%char.

(** [buff.hex]: two lower-case hexadecimal digits per byte. *)
Fixpoint hex (b : Buff) : string :=
  match b with
  | [] => ""
  | x :: rest =>
      let n := Byte.to_N x in
      String (hex_digit (n / 16)) (String (hex_digit (n mod 16)) (hex rest))
  end.

(** JSON documents; JavaScript strings, numbers and booleans are the
    corresponding leaves. *)
#[warnings="-register-all"]
Inductive Json : Type :=
| JNull
| JBool (b : bool)
| JNum (n : Z)
| JStr (s : string)
| JArr (items : list Json)
| JObj (fields : list (string * Json)).

(** The transport's signed event ([Event] of nostr-tools). *)
Module Event.
Record t : Type := mk {
  id         : string;
  pubkey     : string;
  created_at : Z;
  kind       : Z;
  tags       : list (list string);
  content    : string;
  sig        : string
}.
End Event.

(** Anything that is passed to a listener or thrown ([any]). *)
Inductive Value : Type :=
| VUndefined
| VJson (j : Json)
| VEvent (e : Event.t)
| VError (message : string)      (* new Error(message) *)
| VTypeError                     (* a TypeError raised by the engine *)
| VBuff (b : Buff)
| VRoom.                         (* the room instance itself, [this] *)

Definition VString (s : string) : Value := VJson (JStr s).

(** ** Numbers

    A JavaScript number is an IEEE 754 double; [+] is the addition of
    doubles ([PrimFloat.add]).  [String(x)] is [Number::toString] of
    ECMA-262 with radix 10: the shortest decimal that rounds to the double,
    written plainly between 1e-7 and 1e21 and with an exponent outside. *)
Definition Number : Type := float.

Module Number.
Local Open Scope Z_scope.

(** [c * 10^t] compared with [v * 2^e]. *)
Definition compare_scaled (c t v e : Z) : comparison :=
  (c * 10 ^ Z.max t 0 * 2 ^ Z.max (- e) 0 ?= v * 10 ^ Z.max (- t) 0 * 2 ^ Z.max e 0).

(** The least [n] from [n0] on with [v * 2^e < 10^n]. *)
Fixpoint magnitude_from (fuel : nat) (n v e : Z) : Z :=
  match fuel with
  | O => n
  | S fuel =>
      match compare_scaled 1 n v e with
      | Gt => n
      | _ => magnitude_from fuel (n + 1) v e
      end
  end.

(** The [n] with [10^(n-1) <= v * 2^e < 10^n], searched from an estimate
    by the binary logarithm that lies below it. *)
Definition magnitude (v e : Z) : Z :=
  magnitude_from 8 ((Z.log2 v + e) * 30103 / 100000 - 1) v e.

(** The decimal [c * 10^t] rounds to the double [m * 2^e]: it lies between
    the midpoints to the neighbouring doubles, the midpoints included when
    [m] is even. *)
Definition rounds_to (m e c t : Z) : bool :=
  let below := if (m =? 2 ^ 52) && (-1074 <? e) then 4 * m - 1 else 4 * m - 2 in
  let above := 4 * m + 2 in
  match compare_scaled c t below (e - 2), compare_scaled c t above (e - 2) with
  | Gt, Lt => true
  | Eq, Lt | Gt, Eq => Z.even m
  | _, _ => false
  end.

(** The candidates with [k] digits: the two decimals [c * 10^(n-k)] next to
    the double; of those that round to it, the closest, the even one in a
    tie. *)
Definition candidate (m e n k : Z) : option Z :=
  let t := n - k in
  let num := m * 2 ^ Z.max e 0 * 10 ^ Z.max (- t) 0 in
  let den := 2 ^ Z.max (- e) 0 * 10 ^ Z.max t 0 in
  let lo := num / den in
  let hi := lo + 1 in
  match rounds_to m e lo t, rounds_to m e hi t with
  | true, true =>
      match (num - lo * den ?= hi * den - num) with
      | Lt => Some lo
      | Gt => Some hi
      | Eq => Some (if Z.even lo then lo else hi)
      end
  | true, false => Some lo
  | false, true => Some hi
  | false, false => None
  end.

(** The shortest digits: [(s, n)] with [s * 10^(n-k)] rounding to the
    double, [k] the number of digits of [s], as small as possible. *)
Fixpoint shortest (fuel : nat) (m e n k : Z) : Z * Z :=
  match fuel with
  | O => (m, n)
  | S fuel =>
      match candidate m e n k with
      | Some c => if c =? 10 ^ k then (c / 10, n + 1) else (c, n)
      | None => shortest fuel m e n (k + 1)
      end
  end.

Definition digits (s : Z) : string := NilZero.string_of_uint (N.to_uint (Z.to_N s)).

Fixpoint zeros (n : nat) : string :=
  match n with
  | O => ""
  | S n => String "0" (zeros n)
  end.

Definition exponent (e : Z) : string :=
  (if e <? 0 then "e-" else "e+") +:+ digits (Z.abs e).

(** [Number::toString(x, 10)] for a positive finite [x = m * 2^e]. *)
Definition positive_toString (m e : Z) : string :=
  let n0 := magnitude m e in
  let '(s, n) := shortest 17 m e n0 1 in
  let ds := digits s in
  let k := Z.of_nat (String.length ds) in
  if (k <=? n) && (n <=? 21) then ds +:+ zeros (Z.to_nat (n - k))
  else if (0 <? n) && (n <=? 21) then
    String.substring 0 (Z.to_nat n) ds +:+ "." +:+
    String.substring (Z.to_nat n) (Z.to_nat (k - n)) ds
  else if (-6 <? n) && (n <=? 0) then "0." +:+ zeros (Z.to_nat (- n)) +:+ ds
  else if k =? 1 then ds +:+ exponent (n - 1)
  else String.substring 0 1 ds +:+ "." +:+
       String.substring 1 (Z.to_nat (k - 1)) ds +:+ exponent (n - 1).

(** [String(x)] *)
Definition toString (x : Number) : string :=
  match Prim2SF x with
  | S754_nan => "NaN"
  | S754_zero _ => "0"
  | S754_infinity false => "Infinity"
  | S754_infinity true => "-Infinity"
  | S754_finite sign m e =>
      (if sign then "-" else "") +:+ positive_toString (Z.pos m) e
  end.

End Number.

(** [String(x)] for a number. *)
Definition String_ (x : Number) : string := Number.toString x.

(** [s.includes(needle)]. *)
Fixpoint includes (needle s : string) : bool :=
  if String.prefix needle s then true
  else match s with
       | EmptyString => false
       | String _ s' => includes needle s'
       end.

(** ** Configuration *)

Module Filter.
Record t : Type := mk {
  since : option Number;
  kinds : option (list Z);
  h     : option (list string)      (* the '#h' key *)
}.
End Filter.

Module RoomConfig.
Record t : Type := mk {
  cacheSize     : Z;
  allowEcho     : bool;
  encryption    : bool;
  expiration    : Number;
  filter        : Filter.t;
  inactiveLimit : option Z;
  kind          : Z;
  tags          : list (list string)
}.

(** [Partial<RoomConfig>]: [None] is an absent key.  [inactiveLimit] is
    declared optional, so the key may also be present and undefined. *)
Record partial : Type := mk_partial {
  p_cacheSize     : option Z;
  p_allowEcho     : option bool;
  p_encryption    : option bool;
  p_expiration    : option Number;
  p_filter        : option Filter.t;
  p_inactiveLimit : option (option Z);
  p_kind          : option Z;
  p_tags          : option (list (list string))
}.

Definition empty : partial :=
  mk_partial None None None None None None None None.

(** [{ ...d, ...c }] *)
Definition spread (d : t) (c : partial) : t :=
  {| cacheSize     := default (cacheSize d) (p_cacheSize c);
     allowEcho     := default (allowEcho d) (p_allowEcho c);
     encryption    := default (encryption d) (p_encryption c);
     expiration    := default (expiration d) (p_expiration c);
     filter        := default (filter d) (p_filter c);
     inactiveLimit := default (inactiveLimit d) (p_inactiveLimit c);
     kind          := default (kind d) (p_kind c);
     tags          := default (tags d) (p_tags c) |}.
End RoomConfig.

(** [DEFAULTS]; [loaded_at] is the value of [now()] when the module was
    loaded. *)
Definition DEFAULTS (loaded_at : Number) : RoomConfig.t :=
  {| RoomConfig.cacheSize     := 100%Z;
     RoomConfig.allowEcho     := false;
     RoomConfig.encryption    := true;
     RoomConfig.expiration    := (1000 * 60 * 60 * 24)%float;
     RoomConfig.filter        := Filter.mk (Some loaded_at) None None;
     RoomConfig.inactiveLimit := Some (1000 * 60 * 60)%Z;
     RoomConfig.kind          := 21111%Z;
     RoomConfig.tags          := [] |}.

(** [Partial<EventTemplate>] and the draft handed to the client. *)
Module EventTemplate.
Record partial : Type := mk_partial {
  p_kind       : option Z;
  p_tags       : option (list (list string));
  p_content    : option string;
  p_created_at : option Z
}.

Definition empty : partial := mk_partial None None None None.

(** [const { tags, ...rest } = template]: the template without [tags]. *)
Record rest : Type := mk_rest {
  r_kind       : option Z;
  r_content    : option string;
  r_created_at : option Z
}.

Definition without_tags (t : partial) : rest :=
  mk_rest (p_kind t) (p_content t) (p_created_at t).
End EventTemplate.

Module Draft.
Record t : Type := mk {
  kind       : Z;
  created_at : option Z;
  tags       : list (list string);
  content    : string
}.
End Draft.

(** ** The room *)

(** References to functions held by the registry. *)
Inductive Fn : Type :=
| UserFn (u : nat)
| OnceFn (stamp : nat) (eventName : string) (u : nat).

#[global] Instance Fn_eq_dec : EqDecision Fn.
Proof. solve_decision. Defined.

(** [[ eventName, payload, envelope ]] *)
Definition CacheEntry : Type := string * Value * Event.t.

Definition envelope (e : CacheEntry) : Event.t := e.2.

(** The public key of the author of the entry's event. *)
Definition author (e : CacheEntry) : string := Event.pubkey (envelope e).

Record NostrRoom : Type := mkRoom {
  cache     : list CacheEntry;
  cipher    : Buff;
  config    : RoomConfig.t;
  events    : gmap string (list Fn);
  connected : bool;
  _sub      : bool;          (* whether the subscription handle is set *)
  closures  : nat            (* number of closures allocated by [once] *)
}.

Definition set_cache (c : list CacheEntry) (r : NostrRoom) : NostrRoom :=
  mkRoom c (cipher r) (config r) (events r) (connected r) (_sub r) (closures r).
Definition set_events (e : gmap string (list Fn)) (r : NostrRoom) : NostrRoom :=
  mkRoom (cache r) (cipher r) (config r) e (connected r) (_sub r) (closures r).
Definition set_connected (b : bool) (r : NostrRoom) : NostrRoom :=
  mkRoom (cache r) (cipher r) (config r) (events r) b (_sub r) (closures r).
Definition set_sub (b : bool) (r : NostrRoom) : NostrRoom :=
  mkRoom (cache r) (cipher r) (config r) (events r) (connected r) b (closures r).
Definition set_closures (n : nat) (r : NostrRoom) : NostrRoom :=
  mkRoom (cache r) (cipher r) (config r) (events r) (connected r) (_sub r) n.

(** ** The registry object

    [this.events] is a plain object ([{}]): a name is looked up along the
    prototype chain.  [events] maps the own properties of the object to
    their Sets.  ["__proto__"] is never an own property: an assignment to
    it goes to the accessor of [Object.prototype], which replaces the
    prototype of the object.  The map holds under that key the Set that
    such an assignment ([prune("__proto__")]) has made the prototype, if
    any; without one the prototype is [Object.prototype]. *)

(** The properties of [Object.prototype], ["__proto__"] apart, and the
    methods of [Set.prototype] (ECMAScript 2025). *)
Definition Object_prototype : list string :=
  [ "constructor"; "hasOwnProperty"; "isPrototypeOf"; "propertyIsEnumerable";
    "toLocaleString"; "toString"; "valueOf"; "__defineGetter__";
    "__defineSetter__"; "__lookupGetter__"; "__lookupSetter__" ].

Definition Set_prototype : list string :=
  [ "add"; "clear"; "constructor"; "delete"; "difference"; "entries";
    "forEach"; "has"; "intersection"; "isDisjointFrom"; "isSubsetOf";
    "isSupersetOf"; "keys"; "symmetricDifference"; "union"; "values" ].

(** What [this.events[eventName]] evaluates to. *)
Inductive Property : Type :=
| Undefined
| Listeners (fns : list Fn)    (* a Set of the registry *)
| Builtin                      (* a function or an object of the engine *)
| Incompatible.                (* the getter [size] of [Set.prototype]: it
                                  throws, [this.events] being no Set *)

Definition Get (events : gmap string (list Fn)) (eventName : string) : Property :=
  match events !! eventName with
  | Some fns => Listeners fns
  | None =>
      if bool_decide (eventName = "__proto__") then Builtin
      else
        match events !! "__proto__" with
        | Some _ =>
            if bool_decide (eventName = "size") then Incompatible
            else if bool_decide (eventName ∈ Set_prototype ++ Object_prototype)
                 then Builtin else Undefined
        | None =>
            if bool_decide (eventName ∈ Object_prototype) then Builtin
            else Undefined
        end
  end.

(** The registry can hold listeners under the name: the name is free, or
    it names a Set. *)
Definition accepts (r : NostrRoom) (eventName : string) : bool :=
  match Get (events r) eventName with
  | Undefined | Listeners _ => true
  | Builtin | Incompatible => false
  end.

(** A name that no prototype knows: the registry accepts it whatever was
    done to the room. *)
Definition plain (eventName : string) : bool :=
  bool_decide
    (eventName ∉ "__proto__" :: "size" :: Set_prototype ++ Object_prototype).

(** What the room does to the outside, in order. *)
Inductive Effect : Type :=
| Applied (fn : Fn) (args : list Value)            (* fn.apply(this, args) in emit *)
| Forwarded (wrapper : Fn) (u : nat) (args : list Value)
                                                   (* fn.apply(this, args) in onceFn *)
| Console (args : list Value)                      (* console.log / console.error *)
| Stringified (eventName : string) (payload : Json)
| Encrypted (plaintext : string)
| Decrypted (ciphertext : string)
| Parsed (text : string)
| Published (draft : Draft.t)
| Subscribed (filter : Filter.t)
| Unsubscribed.

(** Result of a call to the host: a returned value (a fulfilled promise) or
    a thrown one (a rejected promise). *)
Inductive Outcome (A : Type) : Type :=
| Success (a : A)
| Failure (err : Value).
Arguments Success {A} a.
Arguments Failure {A} err.

(** The view [new SignedEvent(event)] gives of an event. *)
Record SignedEvent : Type := mkSigned {
  isAuthor  : string -> bool;
  isExpired : bool;
  isValid   : bool
}.

(** The collaborators of the room: the transport client, the cipher, the
    signed-event view, the JSON codec and util.js.  [JSON_parse] stands for
    [JSON.parse] followed by the destructuring of [{ eventName, payload }]
    on a document of that shape. *)
Record Host : Type := mkHost {
  client_pubkey   : option string;
  client_sub      : list Filter.t -> Outcome unit;
  client_publish  : Draft.t -> Outcome Event.t;
  SignedEvent_new : Event.t -> SignedEvent;
  Cipher_encrypt  : string -> Buff -> Outcome string;
  Cipher_decrypt  : string -> Buff -> Outcome string;
  JSON_stringify  : string -> Json -> Outcome string;
  JSON_parse      : string -> Outcome (string * Value);
  now             : Number;
  util_isExpired  : Z -> Z -> bool
}.

(** ** Membership view *)

Definition members (h : Host) (r : NostrRoom) : list string :=
  let limit := RoomConfig.inactiveLimit (config r) in
  let cache :=
    match limit with
    | Some limit =>
        List.filter
          (fun e => util_isExpired h (Event.created_at (envelope e)) limit)
          (cache r)
    | None => cache r
    end in
  map (fun e => Event.pubkey (envelope e)) cache.

(** How a call ends. *)
Inductive Completion (A : Type) : Type :=
| Returned (a : A)
| Thrown (err : Value)
| OutOfFuel.
Arguments Returned {A} a.
Arguments Thrown {A} err.
Arguments OutOfFuel {A}.

Section Room.

(** The application's own state, the code of its functions, and the
    digest of buff-utils. *)
Variable U : Type.

(** A listener's code: calls to the room, each followed by what the
    listener does next.  [CallEmit] and [CallLeave] hand the
    continuation the exception of the call, if any ([try]/[catch]);
    rethrowing is [Raise]. *)
Inductive Prog : Type :=
| Return
| Raise (err : Value)
| Inspect (k : NostrRoom -> U -> Prog)
| Store (x : U) (k : Prog)
| CallOn (eventName : string) (u : nat) (k : Prog)
| CallOnce (eventName : string) (u : nat) (k : Prog)
| CallRemove (eventName : string) (u : nat) (k : Prog)
| CallPrune (eventName : string) (k : Prog)
| CallEmit (eventName : string) (args : list Value) (k : option Value -> Prog)
| CallLeave (k : option Value -> Prog).

(** [room.emit(name, ...args)] as a statement: an exception propagates. *)
Definition Emit (eventName : string) (args : list Value) (k : Prog) : Prog :=
  CallEmit eventName args
    (fun c => match c with None => k | Some err => Raise err end).

Variable body : nat -> list Value -> Prog.
Variable digest : Buff -> Buff.

Record State : Type := mkState {
  room  : NostrRoom;
  store : U;
  trace : list Effect
}.

Definition M (A : Type) : Type := State -> Completion A * State.

#[global] Instance M_ret : MRet M := fun A a s => (Returned a, s).

#[global] Instance M_bind : MBind M := fun A B f m s =>
  match m s with
  | (Returned a, s') => f a s'
  | (Thrown err, s') => (Thrown err, s')
  | (OutOfFuel, s') => (OutOfFuel, s')
  end.

Definition throw {A} (err : Value) : M A := fun s => (Thrown err, s).

Definition out_of_fuel {A} : M A := fun s => (OutOfFuel, s).

(** [try { body } catch (err) { handler }] *)
Definition try_catch {A} (m : M A) (handler : Value -> M A) : M A := fun s =>
  match m s with
  | (Thrown err, s') => handler err s'
  | other => other
  end.

(** The exception of a call, if it threw. *)
Definition attempt (m : M unit) : M (option Value) :=
  try_catch (m ;; mret None) (fun err => mret (Some err)).

Definition get_room : M NostrRoom := fun s => (Returned (room s), s).

Definition modify_room (f : NostrRoom -> NostrRoom) : M unit := fun s =>
  (Returned tt, mkState (f (room s)) (store s) (trace s)).

Definition put_store (x : U) : M unit := fun s =>
  (Returned tt, mkState (room s) x (trace s)).

Definition record (e : Effect) : M unit := fun s =>
  (Returned tt, mkState (room s) (store s) (trace s ++ [e])).

(** A call to the host. *)
Definition host {A} (e : Effect) (o : Outcome A) : M A :=
  record e ;;
  match o with
  | Success a => mret a
  | Failure err => throw err
  end.

(** ** Identity *)

(** The constructor, up to the call of [_subscribe]. *)
Definition NostrRoom_new (loaded_at : Number) (secret : string)
    (config : RoomConfig.partial) : NostrRoom :=
  {| cache     := [];
     cipher    := digest (Buff_str secret);
     config    := RoomConfig.spread (DEFAULTS loaded_at) config;
     events    := ∅;
     connected := false;
     _sub      := false;
     closures  := 0 |}.

Definition id (r : NostrRoom) : Buff := digest (cipher r).

(** ** Listener registry *)

(** [Set.prototype.add] and [Set.prototype.delete] on an insertion-ordered
    set. *)
Definition Set_add (fn : Fn) (fns : list Fn) : list Fn :=
  if decide (fn ∈ fns) then fns else fns ++ [fn].

Definition Set_delete (fn : Fn) (fns : list Fn) : list Fn :=
  List.filter (fun g => negb (bool_decide (g = fn))) fns.

(** [this.events[eventName] = new Set()].  The accessor [size] that the
    object inherits once its prototype is a Set has no setter: the
    assignment throws (the code of a class is strict). *)
Definition Put (eventName : string) : M unit := fun s =>
  match Get (events (room s)) eventName with
  | Incompatible => (Thrown VTypeError, s)
  | _ =>
      (Returned tt,
       mkState (set_events (<[eventName := []]> (events (room s))) (room s))
               (store s) (trace s))
  end.

Definition _getFn (eventName : string) : M Property := fun s =>
  match Get (events (room s)) eventName with
  | Undefined => (Put eventName ;; mret (Listeners [])) s
  | Incompatible => (Thrown VTypeError, s)
  | p => (Returned p, s)
  end.

(** The value used as a Set ([.add(fn)], [.delete(fn)], [[...value]]): a
    TypeError when it is none. *)
Definition as_Set (p : Property) : M (list Fn) :=
  match p with
  | Listeners fns => mret fns
  | _ => throw VTypeError
  end.

(** [this._getFn(eventName)], used as a Set. *)
Definition _getFn_Set (eventName : string) : M (list Fn) :=
  p ← _getFn eventName; as_Set p.

Definition on (eventName : string) (fn : Fn) : M unit :=
  fns ← _getFn_Set eventName;
  modify_room (fun r => set_events (<[eventName := Set_add fn fns]> (events r)) r).

Definition remove (eventName : string) (fn : Fn) : M unit :=
  fns ← _getFn_Set eventName;
  modify_room (fun r => set_events (<[eventName := Set_delete fn fns]> (events r)) r).

Definition prune (eventName : string) : M unit := Put eventName.

Definition once (eventName : string) (u : nat) : M unit :=
  r ← get_room;
  let onceFn := OnceFn (closures r) eventName u in
  modify_room (set_closures (S (closures r))) ;;
  on eventName onceFn.

(** [leave], given the room's [emit]. *)
Definition leave (emit : string -> list Value -> M unit) : M unit :=
  r ← get_room;
  (if _sub r then record Unsubscribed else mret tt) ;;
  modify_room (set_connected false) ;;
  emit "_leave" [VBuff (id r)].

(** Running the code of a listener. *)
Fixpoint run (emit : string -> list Value -> M unit) (p : Prog) : M unit :=
  match p with
  | Return => mret tt
  | Raise err => throw err
  | Inspect k => fun s => run emit (k (room s) (store s)) s
  | Store x k => put_store x ;; run emit k
  | CallOn eventName u k => on eventName (UserFn u) ;; run emit k
  | CallOnce eventName u k => once eventName u ;; run emit k
  | CallRemove eventName u k => remove eventName (UserFn u) ;; run emit k
  | CallPrune eventName k => prune eventName ;; run emit k
  | CallEmit eventName args k =>
      c ← attempt (emit eventName args); run emit (k c)
  | CallLeave k =>
      c ← attempt (leave emit); run emit (k c)
  end.

(** [fn.apply(this, args)] on a function of the registry.  For the closure
    of [once] this is
    [this.remove(eventName, onceFn); fn.apply(this, args)]. *)
Definition Function_apply (emit : string -> list Value -> M unit)
    (fn : Fn) (args : list Value) : M unit :=
  record (Applied fn args) ;;
  match fn with
  | UserFn u => run emit (body u args)
  | OnceFn _ eventName u =>
      remove eventName fn ;;
      record (Forwarded fn u args) ;;
      run emit (body u args)
  end.

(** [for (const fn of fns) fn.apply(this, args)] *)
Fixpoint for_fns (emit : string -> list Value -> M unit)
    (fns : list Fn) (args : list Value) : M unit :=
  match fns with
  | [] => mret tt
  | fn :: rest => Function_apply emit fn args ;; for_fns emit rest args
  end.

(** [for (const fn of all) { args = [ eventName, ...args ]; fn.apply(this, args) }] *)
Fixpoint for_all (emit : string -> list Value -> M unit)
    (eventName : string) (all : list Fn) (args : list Value) : M unit :=
  match all with
  | [] => mret tt
  | fn :: rest =>
      let args := VString eventName :: args in
      Function_apply emit fn args ;; for_all emit eventName rest args
  end.

(** [emit]; [fuel] bounds the depth of emits started from listeners. *)
Fixpoint emit (fuel : nat) (eventName : string) (args : list Value) : M unit :=
  match fuel with
  | O => out_of_fuel
  | S n =>
      fns ← _getFn_Set eventName;
      for_fns (emit n) fns args ;;
      all ← _getFn_Set "*";
      for_all (emit n) eventName all args
  end.

(** ** Subscription *)

Definition subFilter (r : NostrRoom) : Filter.t :=
  let filter := RoomConfig.filter (config r) in
  let kinds := default [] (Filter.kinds filter) in
  Filter.mk (Filter.since filter)
            (Some (kinds ++ [RoomConfig.kind (config r)]))
            (Some [hex (id r)]).

(** [_subscribe], up to the registration of the two handlers below. *)
Definition _subscribe (h : Host) : M unit :=
  r ← get_room;
  host (Subscribed (subFilter r)) (client_sub h [subFilter r]) ;;
  modify_room (set_sub true).

(** ** Ingestion *)

(** What the [try] block does once it has the content: parse, push, shift
    and dispatch. *)
Definition _eventHandler_decoded (fuel : nat) (h : Host) (event : Event.t)
    (content : string) : M unit :=
  '(eventName, payload) ← host (Parsed content) (JSON_parse h content);
  modify_room (fun r => set_cache (cache r ++ [(eventName, payload, event)]) r) ;;
  r' ← get_room;
  (if (Z.of_nat (length (cache r')) >? RoomConfig.cacheSize (config r'))%Z
   then modify_room (fun r => set_cache (tail (cache r)) r)
   else mret tt) ;;
  emit fuel eventName [payload; VEvent event].

(** The [try] block of [_eventHandler]. *)
Definition _eventHandler_try (fuel : nat) (h : Host) (event : Event.t) : M unit :=
  r ← get_room;
  let content := Event.content event in
  content ←
    (if includes "?iv=" content
     then host (Decrypted content) (Cipher_decrypt h content (cipher r))
     else mret content);
  _eventHandler_decoded fuel h event content.

(** [_eventHandler], run in one go: nothing else happens to the room while
    the handler waits for the cipher. *)
Definition _eventHandler (fuel : nat) (h : Host) (event : Event.t) : M unit :=
  r ← get_room;
  let allowEcho := RoomConfig.allowEcho (config r) in
  let pubkey := client_pubkey h in
  let signed := SignedEvent_new h event in
  let echoed := negb allowEcho && isAuthor signed (default "" pubkey) in
  if echoed || isExpired signed || negb (isValid signed) then
    record (Console [VJson (JBool echoed); VJson (JBool (isExpired signed));
                     VJson (JBool (negb (isValid signed)))])
  else
    try_catch (_eventHandler_try fuel h event)
              (fun err => emit fuel "_error" [err]).

(** [_eventHandler] is [async]: a call runs it up to its [await], and the
    rest runs in a job of its own once the promise of the cipher has
    settled; other jobs (the next event, a call of the application) may run
    in between.  The two parts: *)

(** The handler up to the [await].  An event is dropped by the gate, or
    its content carries the marker and the handler is suspended on the call
    of the cipher ([true]), or the content is handled at once, to the end of
    the handler ([false]). *)
Definition _eventHandler_called (fuel : nat) (h : Host) (event : Event.t) : M bool :=
  r ← get_room;
  let allowEcho := RoomConfig.allowEcho (config r) in
  let pubkey := client_pubkey h in
  let signed := SignedEvent_new h event in
  let echoed := negb allowEcho && isAuthor signed (default "" pubkey) in
  if echoed || isExpired signed || negb (isValid signed) then
    record (Console [VJson (JBool echoed); VJson (JBool (isExpired signed));
                     VJson (JBool (negb (isValid signed)))]) ;;
    mret false
  else
    let content := Event.content event in
    if includes "?iv=" content then
      record (Decrypted content) ;; mret true
    else
      try_catch (_eventHandler_decoded fuel h event content)
                (fun err => emit fuel "_error" [err]) ;;
      mret false.

(** The handler from the [await] on, the promise of the cipher being
    settled with [settled]. *)
Definition _eventHandler_resumed (fuel : nat) (h : Host) (event : Event.t)
    (settled : Outcome string) : M unit :=
  try_catch
    (content ← match settled with
               | Success content => mret content
               | Failure err => throw err
               end;
     _eventHandler_decoded fuel h event content)
    (fun err => emit fuel "_error" [err]).

(** [void promise]: the promise is dropped, and with it the exception the
    [async] function may end with. *)
Definition void {A} (m : M A) : M unit := fun s =>
  match m s with
  | (OutOfFuel, s') => (OutOfFuel, s')
  | (_, s') => (Returned tt, s')
  end.

(** The handler of the subscription's 'event':
    [void this._eventHandler(event)]. *)
Definition sub_on_event (fuel : nat) (h : Host) (event : Event.t) : M unit :=
  void (_eventHandler_called fuel h event).

(** The job that resumes a suspended handler. *)
Definition sub_on_settled (fuel : nat) (h : Host) (event : Event.t)
    (settled : Outcome string) : M unit :=
  void (_eventHandler_resumed fuel h event settled).

(** The handler of the subscription's 'eose'. *)
Definition sub_on_eose (fuel : nat) : M unit :=
  modify_room (set_connected true) ;;
  emit fuel "_connected" [VRoom].

(** ** Publishing *)

(** The draft that [pub] builds from the content: [tags], [envelope] and
    [draft]. *)
Definition pub_draft (h : Host) (r : NostrRoom)
    (template : EventTemplate.partial) (content : string) : Draft.t :=
  let expiration := RoomConfig.expiration (config r) in
  let kind := RoomConfig.kind (config r) in
  let conf_tags := RoomConfig.tags (config r) in
  let temp_tags := default [] (EventTemplate.p_tags template) in
  let rest := EventTemplate.without_tags template in
  let tags :=
    conf_tags ++ temp_tags ++
    [ ["h"; hex (id r)];
      ["expiration"; String_ (now h + expiration)%float] ] in
  {| Draft.kind       := default kind (EventTemplate.r_kind rest);
     Draft.created_at := EventTemplate.r_created_at rest;
     Draft.tags       := tags;
     Draft.content    := content |}.

(** The [try] block of [pub]. *)
Definition pub_try (h : Host) (eventName : string) (payload : Json)
    (template : EventTemplate.partial) : M (option Event.t) :=
  r ← get_room;
  let encryption := RoomConfig.encryption (config r) in
  content ← host (Stringified eventName payload)
                 (JSON_stringify h eventName payload);
  content ←
    (if encryption
     then host (Encrypted content) (Cipher_encrypt h content (cipher r))
     else mret content);
  let draft := pub_draft h r template content in
  ev ← host (Published draft) (client_publish h draft);
  mret (Some ev).

Definition pub (fuel : nat) (h : Host) (eventName : string) (payload : Json)
    (template : EventTemplate.partial) : M (option Event.t) :=
  r ← get_room;
  if negb (connected r) then throw (VError "Not connected to room!")
  else
    try_catch (pub_try h eventName payload template)
              (fun err =>
                 record (Console [err]) ;;
                 emit fuel "_error" [err] ;;
                 mret None).

(** ** Notions used by the statements *)

(** The listeners of a name, as [emit] finds them. *)
Definition listeners (eventName : string) (r : NostrRoom) : list Fn :=
  default [] (events r !! eventName).

(** A run of emits of one name, each started by the application whatever
    the previous one did. *)
Fixpoint emits (fuel : nat) (eventName : string) (argss : list (list Value))
    (s : State) : State :=
  match argss with
  | [] => s
  | args :: rest => emits fuel eventName rest (emit fuel eventName args s).2
  end.

(** Emits of any names, one after the other. *)
Fixpoint dispatches (fuel : nat) (es : list (string * list Value))
    (s : State) : State :=
  match es with
  | [] => s
  | (eventName, args) :: rest =>
      dispatches fuel rest (emit fuel eventName args s).2
  end.

(** What the transport and the cipher make the room do: an event arrives
    (the subscription calls its handler), or the decryption that a handler
    waits for settles (the handler resumes).  The host is the one of that
    moment. *)
Inductive Job : Type :=
| Arrives (h : Host) (event : Event.t)
| Settles (h : Host) (event : Event.t) (settled : Outcome string).

Definition deliver (fuel : nat) (j : Job) : M unit :=
  match j with
  | Arrives h event => sub_on_event fuel h event
  | Settles h event settled => sub_on_settled fuel h event settled
  end.

(** Jobs run one after the other. *)
Fixpoint arrivals (fuel : nat) (jobs : list Job) (s : State) : State :=
  match jobs with
  | [] => s
  | j :: rest => arrivals fuel rest (deliver fuel j s).2
  end.

(** The gate of the handler, as a test. *)
Definition passes (h : Host) (r : NostrRoom) (event : Event.t) : bool :=
  let signed := SignedEvent_new h event in
  negb (negb (RoomConfig.allowEcho (config r)) &&
          isAuthor signed (default "" (client_pubkey h))
        || isExpired signed || negb (isValid signed)).

(** The jobs of one event whose handler is not interrupted: the decryption
    that the handler waits for, if it does, settles before anything else
    happens. *)
Definition uninterrupted_one (r : NostrRoom) (h : Host) (event : Event.t) :
    list Job :=
  if passes h r event && includes "?iv=" (Event.content event)
  then [Arrives h event;
        Settles h event (Cipher_decrypt h (Event.content event) (cipher r))]
  else [Arrives h event].

Definition uninterrupted (r : NostrRoom) (evs : list (Host * Event.t)) : list Job :=
  flat_map (fun a : Host * Event.t => uninterrupted_one r a.1 a.2) evs.

(** The entry that a job pushes, if any: an event arrives, passes the gate
    and has a content without the marker that parses; or a decryption
    settles with a text that parses. *)
Definition parsed_entry (h : Host) (event : Event.t) (text : string) :
    option CacheEntry :=
  match JSON_parse h text with
  | Success (eventName, payload) => Some (eventName, payload, event)
  | Failure _ => None
  end.

Definition completes (r : NostrRoom) (j : Job) : option CacheEntry :=
  match j with
  | Arrives h event =>
      if passes h r event && negb (includes "?iv=" (Event.content event))
      then parsed_entry h event (Event.content event)
      else None
  | Settles h event (Success text) => parsed_entry h event text
  | Settles h event (Failure _) => None
  end.

(** The event passes the gate of the handler. *)
Definition let_through (h : Host) (r : NostrRoom) (event : Event.t) : Prop :=
  let signed := SignedEvent_new h event in
  (RoomConfig.allowEcho (config r) = true ∨
   isAuthor signed (default "" (client_pubkey h)) = false) ∧
  isExpired signed = false ∧ isValid signed = true.

(** The content of the event, decrypted when it carries the marker. *)
Definition plaintext (h : Host) (r : NostrRoom) (event : Event.t) : Outcome string :=
  if includes "?iv=" (Event.content event)
  then Cipher_decrypt h (Event.content event) (cipher r)
  else Success (Event.content event).

(** The content decrypts and parses to [(eventName, payload)]. *)
Definition decodes (h : Host) (r : NostrRoom) (event : Event.t)
    (eventName : string) (payload : Value) : Prop :=
  ∃ text, plaintext h r event = Success text ∧
          JSON_parse h text = Success (eventName, payload).

(** An accepted event: it passes the gate and decodes, hence is cached. *)
Definition accepted (h : Host) (r : NostrRoom) (event : Event.t)
    (entry : CacheEntry) : Prop :=
  let_through h r event ∧ decodes h r event entry.1.1 entry.1.2 ∧ entry.2 = event.

(** How many times the closure [w] of [once] called the function it
    wraps. *)
Definition forwards (w : Fn) (t : list Effect) : nat :=
  length (List.filter
            (fun e => match e with
                      | Forwarded w' _ _ => bool_decide (w' = w)
                      | _ => false
                      end) t).

(** A listener that returns normally without starting a dispatch: it
    throws nothing, calls neither [emit] nor [leave], and what it registers,
    removes or prunes it does under plain names, so that none of these calls
    throws. *)
Fixpoint quiet (p : Prog) : Prop :=
  match p with
  | Return => True
  | Raise _ => False
  | Inspect k => ∀ r x, quiet (k r x)
  | Store _ k => quiet k
  | CallOn eventName _ k => plain eventName = true ∧ quiet k
  | CallOnce eventName _ k => plain eventName = true ∧ quiet k
  | CallRemove eventName _ k => plain eventName = true ∧ quiet k
  | CallPrune eventName k => plain eventName = true ∧ quiet k
  | CallEmit _ _ _ => False
  | CallLeave _ => False
  end.

(** A quiet listener of the name: a quiet function of the application, or
    a closure that [once] made for this name around one. *)
Definition quiet_fn (eventName : string) (fn : Fn) : Prop :=
  match fn with
  | UserFn u => ∀ args, quiet (body u args)
  | OnceFn _ name u => name = eventName ∧ ∀ args, quiet (body u args)
  end.

(** Every closure in the registry was allocated by [once]. *)
Definition allocated (r : NostrRoom) : Prop :=
  ∀ name fns k n u,
    events r !! name = Some fns → OnceFn k n u ∈ fns → k < closures r.

(** ** Notions used by the proofs *)

(** [m] keeps [Inv], however it ends, and returns values in [Q]. *)
Definition preserved (Inv : State -> Prop) {A} (m : M A) (Q : A -> Prop) : Prop :=
  forall s, Inv s -> Inv (m s).2 /\ forall a, (m s).1 = Returned a -> Q a.

(** The cache, the configuration and the key are out of the listeners'
    reach: no dispatch changes them. *)
Definition same_core (r r' : NostrRoom) : Prop :=
  cache r' = cache r ∧ config r' = config r ∧ cipher r' = cipher r.

(** Two states that differ in the registry at most. *)
Definition registry_only (s s' : State) : Prop :=
  cache (room s') = cache (room s) ∧
  config (room s') = config (room s) ∧
  cipher (room s') = cipher (room s) ∧
  connected (room s') = connected (room s) ∧
  _sub (room s') = _sub (room s) ∧
  store s' = store s ∧
  trace s' = trace s.

(** What the [try] block reads and writes before it dispatches. *)
Definition decode_effects (event : Event.t) (text : string) : list Effect :=
  (if includes "?iv=" (Event.content event)
   then [Decrypted (Event.content event)] else []) ++ [Parsed text].

(** Push, then drop index 0 when the length exceeds [cacheSize]. *)
Definition cached (cacheSize : Z) (c : list CacheEntry) (entry : CacheEntry) :
    list CacheEntry :=
  if (Z.of_nat (length (c ++ [entry])) >? cacheSize)%Z
  then tail (c ++ [entry]) else c ++ [entry].

Definition stored (event : Event.t) (text : string) (entry : CacheEntry)
    (s : State) : State :=
  mkState
    (set_cache (cached (RoomConfig.cacheSize (config (room s))) (cache (room s)) entry)
               (room s))
    (store s)
    (trace s ++ decode_effects event text).

(** The [n] most recent entries of a list. *)
Definition most_recent {A} (n : nat) (l : list A) : list A :=
  drop (length l - n) l.

(** What [pub] submits as content: the serialized text, encrypted when
    [encryption] is on. *)
Definition sealed (h : Host) (r : NostrRoom) (text : string) : Outcome string :=
  if RoomConfig.encryption (config r)
  then Cipher_encrypt h text (cipher r) else Success text.

Definition seal_effects (r : NostrRoom) (text : string) : list Effect :=
  if RoomConfig.encryption (config r) then [Encrypted text] else [].

(** The serialization, the encryption or the submission of [pub] fails
    with [err], after the listed calls to the host. *)
Inductive pub_failure (h : Host) (r : NostrRoom) (eventName : string)
    (payload : Json) (template : EventTemplate.partial) :
    Value -> list Effect -> Prop :=
| serialization_fails err :
    JSON_stringify h eventName payload = Failure err ->
    pub_failure h r eventName payload template err
      [Stringified eventName payload]
| encryption_fails text err :
    JSON_stringify h eventName payload = Success text ->
    sealed h r text = Failure err ->
    pub_failure h r eventName payload template err
      ([Stringified eventName payload] ++ seal_effects r text)
| submission_fails text content err :
    JSON_stringify h eventName payload = Success text ->
    sealed h r text = Success content ->
    client_publish h (pub_draft h r template content) = Failure err ->
    pub_failure h r eventName payload template err
      ([Stringified eventName payload] ++ seal_effects r text ++
       [Published (pub_draft h r template content)]).

(** The state after further effects. *)
Definition after (effects : list Effect) (s : State) : State :=
  mkState (room s) (store s) (trace s ++ effects).

(** The number of tags equal to [t], and of tags named [name]. *)
Definition count_tag (t : list string) (tags : list (list string)) : nat :=
  length (List.filter (fun t' => bool_decide (t' = t)) tags).

Definition count_named (name : string) (tags : list (list string)) : nat :=
  length (List.filter (fun t' => bool_decide (head t' = Some name)) tags).

(** The two loops of [emit (S n)]: the listeners of the name, then the
    listeners of "*". *)
Definition named_phase (n : nat) (eventName : string) (args : list Value) : M unit :=
  fns ← _getFn_Set eventName;
  for_fns (emit n) fns args.

Definition wildcard_phase (n : nat) (eventName : string) (args : list Value) : M unit :=
  all ← _getFn_Set "*";
  for_all (emit n) eventName all args.

(** The closure [w], stamped [k], is registered under [eventName] at most,
    a name that has its Set, and has called the function it wraps [c]
    times. *)
Definition pending (k : nat) (eventName : string) (w : Fn) (c : nat)
    (s : State) : Prop :=
  is_Some (events (room s) !! eventName) /\
  (forall name fns, events (room s) !! name = Some fns -> w ∈ fns -> name = eventName) /\
  k < closures (room s) /\
  forwards w (trace s) = c.

(** The closure [w], stamped [k], is registered nowhere, and has called the
    function it wraps [c] times, [call] being one of them. *)
Definition retired (k : nat) (w : Fn) (c : nat) (call : Effect) (s : State) : Prop :=
  (forall name fns, events (room s) !! name = Some fns -> w ∉ fns) /\
  k < closures (room s) /\
  forwards w (trace s) = c /\
  call ∈ trace s.

(** ** The room in use *)

(** A call of a public method by the application, or a signal of the
    transport ([_subscribe] is the call the constructor makes). *)
Inductive Call : Type :=
| DoOn (eventName : string) (u : nat)
| DoOnce (eventName : string) (u : nat)
| DoRemove (eventName : string) (u : nat)
| DoPrune (eventName : string)
| DoEmit (eventName : string) (args : list Value)
| DoLeave
| DoPub (h : Host) (eventName : string) (payload : Json)
        (template : EventTemplate.partial)
| DoSubscribe (h : Host)
| GotEvent (h : Host) (event : Event.t)
| Settled (h : Host) (event : Event.t) (settled : Outcome string)
| GotEose.

Definition perform (fuel : nat) (c : Call) (s : State) : State :=
  match c with
  | DoOn eventName u => (on eventName (UserFn u) s).2
  | DoOnce eventName u => (once eventName u s).2
  | DoRemove eventName u => (remove eventName (UserFn u) s).2
  | DoPrune eventName => (prune eventName s).2
  | DoEmit eventName args => (emit fuel eventName args s).2
  | DoLeave => (leave (emit fuel) s).2
  | DoPub h eventName payload template =>
      (pub fuel h eventName payload template s).2
  | DoSubscribe h => (_subscribe h s).2
  | GotEvent h event => (sub_on_event fuel h event s).2
  | Settled h event settled => (sub_on_settled fuel h event settled s).2
  | GotEose => (sub_on_eose fuel s).2
  end.

Fixpoint performs (fuel : nat) (cs : list Call) (s : State) : State :=
  match cs with
  | [] => s
  | c :: rest => performs fuel rest (perform fuel c s)
  end.

(** A function that can be added to the registry: one of the
    application's, or a closure that [once] has allocated. *)
Definition registrable (r : NostrRoom) (fn : Fn) : Prop :=
  match fn with
  | UserFn _ => True
  | OnceFn k _ _ => k < closures r
  end.

(** The function is registered where it belongs: a closure of [once]
    under the name it was made for.  In a room that is [homed] every
    closure is. *)
Definition home (eventName : string) (fn : Fn) : Prop :=
  match fn with
  | UserFn _ => True
  | OnceFn _ name _ => name = eventName
  end.

Definition homed (r : NostrRoom) : Prop :=
  forall name fns, events r !! name = Some fns -> Forall (home name) fns.

(** No set of the registry holds a function twice. *)
Definition duplicate_free (r : NostrRoom) : Prop :=
  forall name fns, events r !! name = Some fns -> NoDup fns.

(** The cache is within [cacheSize]. *)
Definition within_bound (r : NostrRoom) : Prop :=
  (Z.of_nat (length (cache r)) <= RoomConfig.cacheSize (config r))%Z.

(** The effects of calling the functions [us] of the application with
    [args], in order. *)
Definition calls (us : list nat) (args : list Value) : list Effect :=
  map (fun u => Applied (UserFn u) args) us.

(** The effects of the wildcard loop on the functions [us]. *)
Definition wildcard_calls (eventName : string) (us : list nat)
    (args : list Value) : list Effect :=
  imap (fun i u => Applied (UserFn u)
                     (replicate (S i) (VString eventName) ++ args)) us.

(** Two states that differ at most by empty listener sets, which
    [_getFn] creates for names that have none. *)
Definition same_listeners (s s' : State) : Prop :=
  (forall name, listeners name (room s') = listeners name (room s)) /\
  cache (room s') = cache (room s) /\
  config (room s') = config (room s) /\
  cipher (room s') = cipher (room s) /\
  connected (room s') = connected (room s) /\
  _sub (room s') = _sub (room s) /\
  closures (room s') = closures (room s) /\
  store s' = store s /\
  trace s' = trace s.

(** The closure [w], stamped [k], is registered nowhere and has called the
    function it wraps [c] times. *)
Definition dormant (k : nat) (w : Fn) (c : nat) (s : State) : Prop :=
  (forall name fns, events (room s) !! name = Some fns -> w ∉ fns) /\
  k < closures (room s) /\
  forwards w (trace s) = c.

(** What the handler has asked of the host when the content fails to
    decrypt, or decrypts to [text]. *)
Definition read_effects (h : Host) (r : NostrRoom) (event : Event.t) : list Effect :=
  match plaintext h r event with
  | Failure _ => [Decrypted (Event.content event)]
  | Success text => decode_effects event text
  end.

(** The entry is kept by the filter of [members]. *)
Definition kept_by_members (h : Host) (r : NostrRoom) (e : CacheEntry) : Prop :=
  match RoomConfig.inactiveLimit (config r) with
  | Some limit => util_isExpired h (Event.created_at (envelope e)) limit = true
  | None => True
  end.

#[global] Instance kept_by_members_dec h r e : Decision (kept_by_members h r e).
Proof.
  unfold kept_by_members.
  destruct (RoomConfig.inactiveLimit (config r)); apply _.
Defined.

End Room.

Arguments Return {U}.
Arguments Raise {U} err.
Arguments Inspect {U} k.
Arguments Store {U} x k.
Arguments CallOn {U} eventName u k.
Arguments CallOnce {U} eventName u k.
Arguments CallRemove {U} eventName u k.
Arguments CallPrune {U} eventName k.
Arguments CallEmit {U} eventName args k.
Arguments CallLeave {U} k.
Arguments Emit {U} eventName args k.
Arguments mkState {U} room store trace.
Arguments room {U} s.
Arguments store {U} s.
Arguments trace {U} s.
Arguments throw {U A} err s.
Arguments out_of_fuel {U A} s.
Arguments try_catch {U A} m handler s.
Arguments attempt {U} m s.
Arguments get_room {U} s.
Arguments modify_room {U} f s.
Arguments put_store {U} x s.
Arguments record {U} e s.
Arguments host {U A} e o s.
Arguments Put {U} eventName s.
Arguments _getFn {U} eventName s.
Arguments as_Set {U} p s.
Arguments _getFn_Set {U} eventName s.
Arguments on {U} eventName fn s.
Arguments remove {U} eventName fn s.
Arguments prune {U} eventName s.
Arguments once {U} eventName u s.
Arguments leave {U} digest emit s.
Arguments run {U} digest emit p s.
Arguments Function_apply {U} body digest emit fn args s.
Arguments for_fns {U} body digest emit fns args s.
Arguments for_all {U} body digest emit eventName all args s.
Arguments emit {U} body digest fuel eventName args s.
Arguments _subscribe {U} digest h s.
Arguments _eventHandler_decoded {U} body digest fuel h event content s.
Arguments _eventHandler_try {U} body digest fuel h event s.
Arguments _eventHandler_called {U} body digest fuel h event s.
Arguments _eventHandler_resumed {U} body digest fuel h event settled s.
Arguments void {U A} m s.
Arguments sub_on_settled {U} body digest fuel h event settled s.
Arguments deliver {U} body digest fuel j s.
Arguments _eventHandler {U} body digest fuel h event s.
Arguments sub_on_event {U} body digest fuel h event s.
Arguments sub_on_eose {U} body digest fuel s.
Arguments pub_try {U} digest h eventName payload template s.
Arguments pub {U} body digest fuel h eventName payload template s.
Arguments emits {U} body digest fuel eventName argss s.
Arguments dispatches {U} body digest fuel es s.
Arguments arrivals {U} body digest fuel jobs s.
Arguments quiet {U} p.
Arguments quiet_fn {U} body eventName fn.
Arguments pending {U} k eventName w c s.
Arguments retired {U} k w c call s.
Arguments named_phase {U} body digest n eventName args s.
Arguments wildcard_phase {U} body digest n eventName args s.
Arguments after {U} effects s.
Arguments preserved {U} Inv {A} m Q.
Arguments registry_only {U} s s'.
Arguments stored {U} event text entry s.
Arguments perform {U} body digest fuel c s.
Arguments performs {U} body digest fuel cs s.
Arguments same_listeners {U} s s'.
Arguments dormant {U} k w c s.

(** * Scenarios *)

(** Concrete listeners, hosts and rooms on which the statements of the next
    part are evaluated. *)

Module Scenario.

(** A stand-in for the digest. *)
Definition digest (b : Buff) : Buff := rev b.

(** The listeners: 3 throws; 4 removes itself from "x" and emits "x"
    again; the others only return. *)
Definition body (u : nat) (args : list Value) : Prog unit :=
  match u with
  | 3 => Raise (VError "listener failed")
  | 4 => CallRemove "x" 4 (Emit "x" args Return)
  | _ => Return
  end.

Definition signed (event : Event.t) : SignedEvent :=
  {| isAuthor  := fun pubkey => bool_decide (Event.pubkey event = pubkey);
     isExpired := false;
     isValid   := bool_decide (Event.sig event = "ok") |}.

(** A host whose codec knows one document, ["{x}"], whose cipher prefixes
    the marker, and whose clock reads 1000. *)
Definition sound_host : Host :=
  {| client_pubkey   := Some "me";
     client_sub      := fun _ => Success tt;
     client_publish  := fun d =>
       Success (Event.mk "id" "me" 1000 (Draft.kind d) (Draft.tags d)
                         (Draft.content d) "ok");
     SignedEvent_new := signed;
     Cipher_encrypt  := fun text _ => Success ("?iv=" +:+ text);
     Cipher_decrypt  := fun text _ =>
       Success (String.substring 4 (String.length text - 4) text);
     JSON_stringify  := fun eventName _ => Success ("{" +:+ eventName +:+ "}");
     JSON_parse      := fun text =>
       if bool_decide (text = "{x}") then Success ("x", VJson (JNum 7))
       else Failure (VError "SyntaxError");
     now             := 1000%float;
     util_isExpired  := fun timestamp limit => (limit <? 1000 - timestamp)%Z |}.

(** The same host with a serializer that fails. *)
Definition failing_host : Host :=
  {| client_pubkey   := client_pubkey sound_host;
     client_sub      := client_sub sound_host;
     client_publish  := client_publish sound_host;
     SignedEvent_new := SignedEvent_new sound_host;
     Cipher_encrypt  := Cipher_encrypt sound_host;
     Cipher_decrypt  := Cipher_decrypt sound_host;
     JSON_stringify  := fun _ _ => Failure (VError "circular structure");
     JSON_parse      := JSON_parse sound_host;
     now             := now sound_host;
     util_isExpired  := util_isExpired sound_host |}.

Definition event_from (author content : string) : Event.t :=
  Event.mk "id" author 990 21111 [] content "ok".

Definition payload : Value := VJson (JNum 7).

(** A room just constructed, and one with a cache of two entries. *)
Definition fresh : State unit :=
  mkState (NostrRoom_new digest 0%float "secret" RoomConfig.empty) tt [].

Definition small : State unit :=
  mkState
    (NostrRoom_new digest 0%float "secret"
       (RoomConfig.mk_partial (Some 2%Z) None None None None None None None))
    tt [].

(** Three events, the content of the first one encrypted, and the jobs
    they give when the decryption settles only after the other two events
    have arrived. *)
Definition sealed_ann : Event.t := event_from "ann" "?iv={x}".

Definition three_events : list (Host * Event.t) :=
  [ (sound_host, sealed_ann);
    (sound_host, event_from "bob" "{x}");
    (sound_host, event_from "cat" "{x}") ].

Definition interleaved : list Job :=
  [ Arrives sound_host sealed_ann;
    Arrives sound_host (event_from "bob" "{x}");
    Arrives sound_host (event_from "cat" "{x}");
    Settles sound_host sealed_ann
      (Cipher_decrypt sound_host (Event.content sealed_ann) (cipher (room small))) ].

(** One listener of "x" and two wildcard listeners. *)
Definition two_wildcards : State unit :=
  (on "*" (UserFn 2) (on "*" (UserFn 1) (on "x" (UserFn 0) fresh).2).2).2.

(** A connected room, and one whose [_error] listener throws. *)
Definition online : State unit := (sub_on_eose body digest 1 fresh).2.

Definition online_throwing : State unit := (on "_error" (UserFn 3) online).2.

(** A connected room whose [_error] listener returns. *)
Definition online_listening : State unit := (on "_error" (UserFn 0) online).2.

(** A room that lets its own events in. *)
Definition echoing : State unit :=
  mkState
    (NostrRoom_new digest 0%float "secret"
       (RoomConfig.mk_partial None (Some true) None None None None None None))
    tt [].

(** A room with a throwing, resp. re-entrant, listener of "x". *)
Definition thrower_ahead : State unit := (on "x" (UserFn 3) fresh).2.

Definition reentrant_ahead : State unit := (on "x" (UserFn 4) fresh).2.

(** A room with a quiet listener of "x", and one with a wildcard listener
    besides a throwing listener of "x". *)
Definition quiet_ahead : State unit := (on "x" (UserFn 0) fresh).2.

Definition thrower_and_wildcard : State unit :=
  (on "*" (UserFn 1) (on "x" (UserFn 3) fresh).2).2.

(** A cache with two entries of one author, without and with the default
    [inactiveLimit]. *)
Definition same_author_twice (limit : option Z) : NostrRoom :=
  let r := NostrRoom_new digest 0%float "secret"
             (RoomConfig.mk_partial None None None None None (Some limit) None None) in
  set_cache [("x", payload, event_from "alice" "{x}");
             ("y", payload, event_from "alice" "{x}")] r.

(** Listeners that are all quiet: 1 registers 2 under "*", the others only
    return. *)
Definition quiet_body (u : nat) (args : list Value) : Prog unit :=
  match u with
  | 1 => CallOn "*" 2 Return
  | _ => Return
  end.

(** A room with a listener of [_connected]. *)
Definition waiting : State unit := (on "_connected" (UserFn 1) fresh).2.

(** A room that does not filter its members, and one without a cache. *)
Definition unfiltered : State unit :=
  mkState
    (NostrRoom_new digest 0%float "secret"
       (RoomConfig.mk_partial None None None None None (Some None) None None))
    tt [].

Definition cacheless : State unit :=
  mkState
    (NostrRoom_new digest 0%float "secret"
       (RoomConfig.mk_partial (Some 0%Z) None None None None None None None))
    tt [].

(** The event that [sound_host] returns for a publication of "x". *)
Definition published : Event.t :=
  Event.mk "id" "me" 1000 21111
           [["h"; "736563726574"]; ["expiration"; "86401000"]] "?iv={x}" "ok".

End Scenario.

(** * Properties *)

Section Properties.
Context {U : Type} (body : nat → list Value → Prog U) (digest : Buff → Buff).

Lemma bind_eq {A B} (m : M U A) (f : A → M U B) (s : State U) :
  (m ≫= f) s =
  match m s with
  | (Returned a, s') => f a s'
  | (Thrown err, s') => (Thrown err, s')
  | (OutOfFuel, s') => (OutOfFuel, s')
  end.
Proof. reflexivity. Qed.

(** ** The registry object *)

Lemma Get_Listeners (e : gmap string (list Fn)) name fns :
  Get e name = Listeners fns ↔ e !! name = Some fns.
Proof.
  unfold Get. destruct (e !! name) as [fns'|]; [split; congruence|].
  split; [|done]. destruct (e !! "__proto__"); by repeat case_bool_decide.
Qed.

Lemma accepts_own (r : NostrRoom) name fns :
  events r !! name = Some fns → accepts r name = true.
Proof. intros H. unfold accepts. by rewrite (proj2 (Get_Listeners _ _ _) H). Qed.

Lemma plain_accepts (r : NostrRoom) name : plain name = true → accepts r name = true.
Proof.
  unfold plain, accepts, Get. intros H%bool_decide_eq_true.
  rewrite !not_elem_of_cons in H. destruct H as (Hproto & Hsize & Hnot).
  apply not_elem_of_app in Hnot as Hboth. destruct Hboth as [_ Hobj].
  destruct (events r !! name); [done|].
  rewrite (bool_decide_eq_false_2 _ Hproto).
  destruct (events r !! "__proto__").
  - by rewrite (bool_decide_eq_false_2 _ Hsize), (bool_decide_eq_false_2 _ Hnot).
  - by rewrite (bool_decide_eq_false_2 _ Hobj).
Qed.

(** [_getFn], used as a Set: a TypeError unless the registry accepts the
    name; the Set of the name otherwise, created empty when there is
    none. *)
Lemma getFn_Set_eq name (s : State U) :
  _getFn_Set name s =
  if accepts (room s) name
  then (Returned (listeners name (room s)),
        match events (room s) !! name with
        | Some _ => s
        | None =>
            mkState (set_events (<[name := []]> (events (room s))) (room s))
                    (store s) (trace s)
        end)
  else (Thrown VTypeError, s).
Proof.
  unfold _getFn_Set, _getFn, Put, accepts, listeners. rewrite bind_eq.
  destruct (Get (events (room s)) name) as [|fns| |] eqn:E; try done.
  - rewrite bind_eq, E. simpl.
    destruct (events (room s) !! name) as [fns|] eqn:E'; [|done].
    apply Get_Listeners in E'. congruence.
  - apply Get_Listeners in E. by rewrite E.
Qed.

Lemma prune_eq name (s : State U) :
  prune name s =
  match Get (events (room s)) name with
  | Incompatible => (Thrown VTypeError, s)
  | _ => (Returned (),
          mkState (set_events (<[name := []]> (events (room s))) (room s))
                  (store s) (trace s))
  end.
Proof. reflexivity. Qed.

(** ** The registry methods as state changes *)

Lemma on_state name fn (s : State U) :
  on name fn s =
  if accepts (room s) name
  then (Returned (),
        mkState (set_events (<[name := Set_add fn (listeners name (room s))]>
                               (events (room s))) (room s))
                (store s) (trace s))
  else (Thrown VTypeError, s).
Proof.
  unfold on. rewrite bind_eq, getFn_Set_eq.
  destruct (accepts (room s) name); [|done].
  destruct (events (room s) !! name) as [fns|] eqn:E; [done|].
  unfold modify_room, set_events. simpl. by rewrite insert_insert_eq.
Qed.

Lemma remove_state name fn (s : State U) :
  remove name fn s =
  if accepts (room s) name
  then (Returned (),
        mkState (set_events (<[name := Set_delete fn (listeners name (room s))]>
                               (events (room s))) (room s))
                (store s) (trace s))
  else (Thrown VTypeError, s).
Proof.
  unfold remove. rewrite bind_eq, getFn_Set_eq.
  destruct (accepts (room s) name); [|done].
  destruct (events (room s) !! name) as [fns|] eqn:E; [done|].
  unfold modify_room, set_events. simpl. by rewrite insert_insert_eq.
Qed.

Lemma once_state name u (s : State U) :
  once name u s =
  on name (OnceFn (closures (room s)) name u)
     (mkState (set_closures (S (closures (room s))) (room s)) (store s) (trace s)).
Proof. reflexivity. Qed.

Lemma listeners_insert name name' fns (r : NostrRoom) :
  listeners name' (set_events (<[name := fns]> (events r)) r) =
  if decide (name = name') then fns else listeners name' r.
Proof.
  unfold listeners. simpl. rewrite lookup_insert. by case_decide.
Qed.

Lemma listeners_lookup name fns (r : NostrRoom) :
  events r !! name = Some fns → listeners name r = fns.
Proof. unfold listeners. by intros ->. Qed.

Lemma accepts_insert name fns (r : NostrRoom) :
  accepts (set_events (<[name := fns]> (events r)) r) name = true.
Proof. apply (accepts_own _ _ fns). simpl. by rewrite lookup_insert_eq. Qed.

Lemma getFn_Set_returns name (s : State U) :
  accepts (room s) name = true →
  _getFn_Set name s = (Returned (listeners name (room s)), (_getFn_Set name s).2).
Proof. intros H. rewrite getFn_Set_eq, H. done. Qed.

Lemma on_returns name fn (s : State U) :
  accepts (room s) name = true → (on name fn s).1 = Returned ().
Proof. intros H. by rewrite on_state, H. Qed.

Lemma remove_returns name fn (s : State U) :
  accepts (room s) name = true → (remove name fn s).1 = Returned ().
Proof. intros H. by rewrite remove_state, H. Qed.

Lemma once_returns name u (s : State U) :
  accepts (room s) name = true → (once name u s).1 = Returned ().
Proof. intros H. rewrite once_state. by apply on_returns. Qed.

Lemma prune_returns name (s : State U) :
  accepts (room s) name = true → (prune name s).1 = Returned ().
Proof.
  unfold accepts. rewrite prune_eq.
  by destruct (Get (events (room s)) name).
Qed.

Lemma on_registry_only name fn (s : State U) : registry_only s (on name fn s).2.
Proof. rewrite on_state. by destruct (accepts (room s) name). Qed.

Lemma remove_registry_only name fn (s : State U) :
  registry_only s (remove name fn s).2.
Proof. rewrite remove_state. by destruct (accepts (room s) name). Qed.

Lemma once_registry_only name u (s : State U) : registry_only s (once name u s).2.
Proof.
  rewrite once_state.
  apply (on_registry_only name _
           (mkState (set_closures (S (closures (room s))) (room s))
                    (store s) (trace s))).
Qed.

Lemma prune_registry_only name (s : State U) : registry_only s (prune name s).2.
Proof. rewrite prune_eq. by destruct (Get (events (room s)) name). Qed.

Lemma registry_only_trans (s1 s2 s3 : State U) :
  registry_only s1 s2 → registry_only s2 s3 → registry_only s1 s3.
Proof.
  intros (? & ? & ? & ? & ? & ? & ?) (? & ? & ? & ? & ? & ? & ?).
  repeat split; congruence.
Qed.

Section Frame.
Variable Inv : State U → Prop.
Variable ok : string → Fn → Prop.

Local Abbreviation keeps := (preserved Inv).

Lemma keeps_weaken {A} (m : M U A) (Q R : A → Prop) :
  keeps m Q → (∀ a, Q a → R a) → keeps m R.
Proof.
  intros Hm HQR s Hs. destruct (Hm s Hs) as [HI HQ]. split; [done|].
  intros a Ha. auto.
Qed.

Lemma keeps_ret {A} (a : A) (Q : A → Prop) : Q a → keeps (mret a) Q.
Proof. intros HQ s Hs. split; [done|]. intros a' [= <-]. done. Qed.

Lemma keeps_throw {A} err (Q : A → Prop) : keeps (throw err) Q.
Proof. intros s Hs. split; [done|]. intros a' [=]. Qed.

Lemma keeps_out_of_fuel {A} (Q : A → Prop) : keeps out_of_fuel Q.
Proof. intros s Hs. split; [done|]. intros a' [=]. Qed.

Lemma keeps_bind {A B} (m : M U A) (f : A → M U B) (Q : A → Prop) (R : B → Prop) :
  keeps m Q → (∀ a, Q a → keeps (f a) R) → keeps (m ≫= f) R.
Proof.
  intros Hm Hf s Hs. rewrite bind_eq.
  destruct (Hm s Hs) as [HI HQ].
  destruct (m s) as [[a| err |] s']; simpl in *.
  - apply Hf; auto.
  - split; [done|]. intros ? [=].
  - split; [done|]. intros ? [=].
Qed.

Lemma keeps_try_catch {A} (m : M U A) (handler : Value → M U A) (Q : A → Prop) :
  keeps m Q → (∀ err, keeps (handler err) Q) → keeps (try_catch m handler) Q.
Proof.
  intros Hm Hh s Hs. unfold try_catch.
  destruct (Hm s Hs) as [HI HQ].
  destruct (m s) as [[a| err |] s']; simpl in *.
  - split; [done|]. intros ? [= <-]. auto.
  - apply Hh; auto.
  - split; [done|]. intros ? [=].
Qed.

Lemma keeps_attempt (m : M U unit) :
  keeps m (λ _, True) → keeps (attempt m) (λ _, True).
Proof.
  intros Hm. unfold attempt. apply keeps_try_catch.
  - eapply keeps_bind; [exact Hm|]. intros _ _. by apply keeps_ret.
  - intros err. by apply keeps_ret.
Qed.

Hypothesis I_listeners : ∀ s name fns,
  Inv s → events (room s) !! name = Some fns → Forall (ok name) fns.
Hypothesis ok_user : ∀ name u, ok name (UserFn u).
Hypothesis I_events : ∀ s name fns,
  Inv s → Forall (ok name) fns →
  Inv (mkState (set_events (<[name := fns]> (events (room s))) (room s)) (store s) (trace s)).
Hypothesis I_closures : ∀ s,
  Inv s →
  (∀ name u, ok name (OnceFn (closures (room s)) name u)) ∧
  Inv (mkState (set_closures (S (closures (room s))) (room s)) (store s) (trace s)).
Hypothesis I_connected : ∀ s b,
  Inv s → Inv (mkState (set_connected b (room s)) (store s) (trace s)).
Hypothesis I_store : ∀ s x, Inv s → Inv (mkState (room s) x (trace s)).
Hypothesis I_unsubscribed : ∀ s,
  Inv s → Inv (mkState (room s) (store s) (trace s ++ [Unsubscribed])).
Hypothesis I_call : ∀ s name fn args,
  Inv s → ok name fn →
  Inv (mkState (room s) (store s) (trace s ++ [Applied fn args])) ∧
  ∀ u, Inv (mkState (room s) (store s) (trace s ++ [Forwarded fn u args])).

Lemma keeps_getFn name : keeps (_getFn_Set name) (Forall (ok name)).
Proof.
  intros s Hs. rewrite getFn_Set_eq. unfold listeners.
  destruct (accepts (room s) name); [|split; [done|]; intros a [=]].
  destruct (events (room s) !! name) as [fns|] eqn:E; simpl.
  - split; [done|]. intros a [= <-]. eauto.
  - split; [by apply I_events|]. intros a [= <-]. constructor.
Qed.

Lemma Forall_Set_add (P : Fn → Prop) fn fns :
  P fn → Forall P fns → Forall P (Set_add fn fns).
Proof.
  intros Hfn Hfns. unfold Set_add. case_decide; [done|].
  apply Forall_app; split; [done|]. by constructor.
Qed.

Lemma Forall_Set_delete (P : Fn → Prop) fn fns :
  Forall P fns → Forall P (Set_delete fn fns).
Proof.
  intros Hfns. unfold Set_delete. rewrite Forall_forall in Hfns |- *.
  intros x Hx. apply Hfns. apply list_elem_of_In. apply list_elem_of_In in Hx.
  apply filter_In in Hx. tauto.
Qed.

Lemma keeps_on name fn : ok name fn → keeps (on name fn) (λ _, True).
Proof.
  intros Hfn. unfold on. eapply keeps_bind; [apply keeps_getFn|].
  intros fns Hfns s Hs. split; [|done]. simpl.
  apply I_events; [done|]. by apply Forall_Set_add.
Qed.

Lemma keeps_remove name fn : keeps (remove name fn) (λ _, True).
Proof.
  unfold remove. eapply keeps_bind; [apply keeps_getFn|].
  intros fns Hfns s Hs. split; [|done]. simpl.
  apply I_events; [done|]. by apply Forall_Set_delete.
Qed.

Lemma keeps_prune name : keeps (prune name) (λ _, True).
Proof.
  intros s Hs. split; [|done]. rewrite prune_eq.
  destruct (Get (events (room s)) name); simpl; try done; by apply I_events.
Qed.

Lemma keeps_once name u : keeps (once name u) (λ _, True).
Proof.
  intros s Hs. unfold once. rewrite bind_eq. simpl. rewrite bind_eq. simpl.
  destruct (I_closures s Hs) as [Hok Hinv].
  by apply keeps_on.
Qed.

Lemma keeps_leave emit_ :
  (∀ name args, keeps (emit_ name args) (λ _, True)) →
  keeps (leave digest emit_) (λ _, True).
Proof.
  intros Hemit s Hs. unfold leave. rewrite bind_eq. simpl.
  assert (Hrec : keeps (if _sub (room s) then record Unsubscribed else mret ())
                       (λ _, True)).
  { destruct (_sub (room s)); [|by apply keeps_ret].
    intros s' Hs'. split; [by apply I_unsubscribed|done]. }
  refine (keeps_bind _ _ _ _ Hrec _ s Hs). intros _ _.
  eapply (keeps_bind _ _ (λ _, True)).
  - intros s' Hs'. split; [|done]. simpl. by apply I_connected.
  - intros _ _. apply Hemit.
Qed.

Lemma keeps_run emit_ p :
  (∀ name args, keeps (emit_ name args) (λ _, True)) →
  keeps (run digest emit_ p) (λ _, True).
Proof.
  intros Hemit. induction p as [| | k IH | x k IH | n u k IH | n u k IH
                                | n u k IH | n k IH | n args k IH | k IH]; simpl.
  - by apply keeps_ret.
  - apply keeps_throw.
  - intros s Hs. by apply IH.
  - eapply (keeps_bind _ _ (λ _, True)); [|intros; apply IH].
    intros s Hs. split; [|done]. by apply I_store.
  - eapply keeps_bind; [by apply keeps_on|intros; apply IH].
  - eapply keeps_bind; [by apply keeps_once|intros; apply IH].
  - eapply keeps_bind; [by apply keeps_remove|intros; apply IH].
  - eapply keeps_bind; [by apply keeps_prune|intros; apply IH].
  - eapply keeps_bind; [apply keeps_attempt, Hemit|intros; apply IH].
  - eapply keeps_bind; [apply keeps_attempt, keeps_leave, Hemit|intros; apply IH].
Qed.

Lemma keeps_apply emit_ name fn args :
  (∀ name args, keeps (emit_ name args) (λ _, True)) →
  ok name fn → keeps (Function_apply body digest emit_ fn args) (λ _, True).
Proof.
  intros Hemit Hfn. unfold Function_apply.
  eapply (keeps_bind _ _ (λ _, True)).
  { intros s Hs. split; [|done]. by apply (I_call s name). }
  intros _ _. destruct fn as [u | k n u].
  - by apply keeps_run.
  - eapply keeps_bind; [by apply keeps_remove|]. intros _ _.
    eapply (keeps_bind _ _ (λ _, True)).
    { intros s Hs. split; [|done]. by apply (I_call s name). }
    intros _ _. by apply keeps_run.
Qed.

Lemma keeps_for_fns emit_ name fns args :
  (∀ name args, keeps (emit_ name args) (λ _, True)) →
  Forall (ok name) fns → keeps (for_fns body digest emit_ fns args) (λ _, True).
Proof.
  intros Hemit. induction 1 as [| fn fns Hfn Hfns IH]; simpl.
  - by apply keeps_ret.
  - eapply keeps_bind; [by apply (keeps_apply _ name)|]. intros _ _. apply IH.
Qed.

Lemma keeps_for_all emit_ name name' all args :
  (∀ name args, keeps (emit_ name args) (λ _, True)) →
  Forall (ok name') all →
  keeps (for_all body digest emit_ name all args) (λ _, True).
Proof.
  intros Hemit Hall. revert args.
  induction Hall as [| fn fns Hfn Hfns IH]; intros args; simpl.
  - by apply keeps_ret.
  - eapply keeps_bind; [by apply (keeps_apply _ name')|]. intros _ _. apply IH.
Qed.

Lemma keeps_emit fuel name args :
  keeps (emit body digest fuel name args) (λ _, True).
Proof.
  revert name args. induction fuel as [| n IH]; intros name args; simpl.
  - apply keeps_out_of_fuel.
  - eapply keeps_bind; [apply keeps_getFn|]. intros fns Hfns.
    eapply keeps_bind; [by apply (keeps_for_fns _ name)|]. intros _ _.
    eapply keeps_bind; [apply keeps_getFn|]. intros all Hall.
    by apply (keeps_for_all _ _ "*").
Qed.

End Frame.

Lemma emit_same_core fuel name args (s : State U) :
  same_core (room s) (room (emit body digest fuel name args s).2).
Proof.
  refine (proj1 (keeps_emit (λ s', same_core (room s) (room s')) (λ _ _, True)
                   _ _ _ _ _ _ _ _ fuel name args s _)); try done.
  intros; by apply Forall_true.
Qed.

(** ** Ingestion *)

Ltac steps := repeat first [rewrite bind_eq | progress simpl].

Lemma try_decoded fuel h event text eventName payload (s : State U) :
  plaintext h (room s) event = Success text →
  JSON_parse h text = Success (eventName, payload) →
  _eventHandler_try body digest fuel h event s =
  emit body digest fuel eventName [payload; VEvent event]
       (stored event text (eventName, payload, event) s).
Proof.
  intros Hplain Hparse. unfold _eventHandler_try, _eventHandler_decoded, plaintext, stored, decode_effects, cached in *.
  unfold host. steps.
  destruct (includes "?iv=" (Event.content event)).
  - steps. rewrite Hplain. steps. rewrite Hparse. steps.
    rewrite <- app_assoc. simpl.
    destruct (Z.of_nat _ >? _)%Z; steps; reflexivity.
  - injection Hplain as <-. steps. rewrite Hparse. steps.
    destruct (Z.of_nat _ >? _)%Z; steps; reflexivity.
Qed.

Lemma gate_open h event (s : State U) :
  let_through h (room s) event →
  ∀ fuel, _eventHandler body digest fuel h event s =
          try_catch (_eventHandler_try body digest fuel h event)
                    (λ err, emit body digest fuel "_error" [err]) s.
Proof.
  intros (Hecho & Hexp & Hval) fuel. unfold _eventHandler.
  rewrite bind_eq. simpl. rewrite Hexp, Hval.
  destruct Hecho as [-> | ->]; simpl; [reflexivity|].
  by rewrite andb_false_r.
Qed.

Lemma same_core_trans r1 r2 r3 :
  same_core r1 r2 → same_core r2 r3 → same_core r1 r3.
Proof. unfold same_core. intros (-> & -> & ->) (-> & -> & ->). done. Qed.

Lemma handler_accepted fuel h event entry (s : State U) :
  accepted h (room s) event entry →
  ∃ text,
    _eventHandler body digest fuel h event s =
    try_catch (emit body digest fuel entry.1.1 [entry.1.2; VEvent event])
              (λ err, emit body digest fuel "_error" [err])
              (stored event text entry s).
Proof.
  destruct entry as [[eventName payload] ev].
  intros (Hgate & (text & Hplain & Hparse) & Hev). simpl in *. subst ev.
  exists text. rewrite gate_open by done. unfold try_catch.
  by rewrite (try_decoded _ _ _ text eventName payload).
Qed.

(** After an accepted event the cache is the pushed-and-trimmed one,
    whatever the listeners did. *)
Lemma handler_cache fuel h event entry (s : State U) :
  accepted h (room s) event entry →
  let r' := room (_eventHandler body digest fuel h event s).2 in
  cache r' = cached (RoomConfig.cacheSize (config (room s))) (cache (room s)) entry ∧
  config r' = config (room s) ∧ cipher r' = cipher (room s).
Proof.
  intros Hacc. destruct (handler_accepted fuel h event entry s Hacc) as [text ->].
  unfold try_catch.
  pose proof (emit_same_core fuel entry.1.1 [entry.1.2; VEvent event]
                (stored event text entry s)) as H1.
  destruct (emit body digest fuel entry.1.1 _ (stored event text entry s))
    as [[[]|err|] s1]; simpl in *; try exact H1.
  pose proof (emit_same_core fuel "_error" [err] s1) as H2.
  exact (same_core_trans _ _ _ H1 H2).
Qed.

Lemma void_state {A} (m : M U A) (s : State U) : (void m s).2 = (m s).2.
Proof. unfold void. by destruct (m s) as [[a|err|] s']. Qed.

Lemma then_ret_state {A B} (m : M U A) (b : B) (s : State U) :
  ((m ;; mret b) s).2 = (m s).2.
Proof. rewrite bind_eq. by destruct (m s) as [[a|err|] s']. Qed.

Lemma void_not_thrown {A} (m : M U A) (s : State U) e : (void m s).1 ≠ Thrown e.
Proof. unfold void. by destruct (m s) as [[a|err|] s']. Qed.

Lemma reported_same_core fuel name args (s : State U) :
  same_core (room s)
    (room (try_catch (emit body digest fuel name args)
                     (λ err, emit body digest fuel "_error" [err]) s).2).
Proof.
  unfold try_catch.
  pose proof (emit_same_core fuel name args s) as H1.
  destruct (emit body digest fuel name args s) as [[[]|err|] s1];
    simpl in *; try exact H1.
  pose proof (emit_same_core fuel "_error" [err] s1) as H2.
  exact (same_core_trans _ _ _ H1 H2).
Qed.

(** The handler from the content on, with its [catch]: the cache takes the
    entry when the content parses and is left alone otherwise, whatever the
    listeners do; the configuration and the key are left alone. *)
Lemma decoded_cache fuel h event content (s : State U) :
  let s' := (try_catch (_eventHandler_decoded body digest fuel h event content)
                       (λ err, emit body digest fuel "_error" [err]) s).2 in
  cache (room s') =
    match parsed_entry h event content with
    | Some entry =>
        cached (RoomConfig.cacheSize (config (room s))) (cache (room s)) entry
    | None => cache (room s)
    end ∧
  config (room s') = config (room s) ∧ cipher (room s') = cipher (room s).
Proof.
  intros s'. unfold s', try_catch, _eventHandler_decoded, parsed_entry, host.
  steps.
  destruct (JSON_parse h content) as [[eventName payload]|err]; steps.
  - unfold cached.
    destruct (Z.of_nat _ >? _)%Z; steps;
      apply (reported_same_core fuel eventName [payload; VEvent event]).
  - apply (emit_same_core fuel "_error" [err]
             (mkState (room s) (store s) (trace s ++ [Parsed content]))).
Qed.

Lemma passes_let_through h r event :
  passes h r event = true ↔ let_through h r event.
Proof.
  unfold passes, let_through. cbn zeta.
  destruct (RoomConfig.allowEcho (config r)),
    (isAuthor (SignedEvent_new h event) (default "" (client_pubkey h))),
    (isExpired (SignedEvent_new h event)), (isValid (SignedEvent_new h event));
    simpl;
    (split; [intros ?; try done; repeat split; auto
            | intros ([?|?] & ? & ?); done]).
Qed.

(** What a job does to the cache: it pushes the entry it completes, if
    any.  The configuration and the key it leaves alone. *)
Lemma deliver_cache fuel j (s : State U) :
  let r' := room (deliver body digest fuel j s).2 in
  cache r' =
    match completes (room s) j with
    | Some entry =>
        cached (RoomConfig.cacheSize (config (room s))) (cache (room s)) entry
    | None => cache (room s)
    end ∧
  config r' = config (room s) ∧ cipher r' = cipher (room s).
Proof.
  destruct j as [h event | h event [text|err]]; cbn [deliver completes];
    unfold sub_on_event, sub_on_settled; rewrite void_state.
  - unfold _eventHandler_called, passes. rewrite bind_eq. unfold get_room.
    cbn iota beta zeta.
    destruct (_ || _ || _); [done|].
    destruct (includes "?iv=" (Event.content event)); [done|].
    cbn [negb andb]. rewrite then_ret_state.
    apply (decoded_cache fuel h event (Event.content event) s).
  - apply (decoded_cache fuel h event text s).
  - unfold _eventHandler_resumed, try_catch. steps.
    apply (emit_same_core fuel "_error" [err] s).
Qed.

Lemma arrivals_app fuel jobs1 jobs2 (s : State U) :
  arrivals body digest fuel (jobs1 ++ jobs2) s =
  arrivals body digest fuel jobs2 (arrivals body digest fuel jobs1 s).
Proof. revert s. induction jobs1 as [| j jobs1 IH]; intros s; simpl; [done|]. apply IH. Qed.

Lemma accepted_same_core h r r' event entry :
  config r' = config r → cipher r' = cipher r →
  accepted h r event entry → accepted h r' event entry.
Proof.
  unfold accepted, let_through, decodes, plaintext. intros -> ->. done.
Qed.

Lemma most_recent_all {A} n (l : list A) : length l ≤ n → most_recent n l = l.
Proof. intros H. unfold most_recent. by replace (length l - n) with 0 by lia. Qed.

Lemma most_recent_length {A} n (l : list A) :
  length (most_recent n l) = min n (length l).
Proof. unfold most_recent. rewrite length_drop. lia. Qed.

Lemma most_recent_snoc {A} n (l : list A) x :
  0 < n →
  most_recent n (l ++ [x]) =
  if decide (length (most_recent n l) < n)
  then most_recent n l ++ [x] else drop 1 (most_recent n l ++ [x]).
Proof.
  intros Hn. rewrite most_recent_length. unfold most_recent.
  rewrite length_app. simpl. case_decide.
  - replace (length l + 1 - n) with 0 by lia.
    by replace (length l - n) with 0 by lia.
  - replace (length l + 1 - n) with (S (length l - n)) by lia.
    rewrite drop_app_le by lia.
    rewrite (drop_app_le (drop _ l)) by (rewrite length_drop; lia).
    rewrite drop_drop. do 2 f_equal. lia.
Qed.

Lemma cached_most_recent (n : Z) k (l : list CacheEntry) entry :
  (0 < n)%Z → k = Z.to_nat n →
  cached n (most_recent k l) entry = most_recent k (l ++ [entry]).
Proof.
  intros Hn ->. rewrite most_recent_snoc by lia. unfold cached.
  rewrite length_app. simpl.
  pose proof (most_recent_length (Z.to_nat n) l) as Hlen.
  case_decide; destruct (Z.gtb_spec (Z.of_nat (length (most_recent (Z.to_nat n) l) + 1)) n);
    try lia; done.
Qed.

Lemma most_recent_app {A} n (l1 l2 : list A) :
  n ≤ length l2 → most_recent n (l1 ++ l2) = most_recent n l2.
Proof.
  intros H. unfold most_recent. rewrite length_app.
  rewrite drop_app_ge by lia. f_equal. lia.
Qed.

Lemma completes_same_core r r' j :
  config r' = config r → completes r' j = completes r j.
Proof. intros H. destruct j; simpl; [|done]. unfold passes. by rewrite H. Qed.

Lemma arrivals_cache fuel jobs r0 n l (s : State U) :
  (0 < RoomConfig.cacheSize (config r0))%Z →
  n = Z.to_nat (RoomConfig.cacheSize (config r0)) →
  config (room s) = config r0 →
  cache (room s) = most_recent n l →
  let r' := room (arrivals body digest fuel jobs s) in
  cache r' = most_recent n (l ++ omap (completes r0) jobs) ∧
  config r' = config r0.
Proof.
  intros Hpos Hn. revert l s.
  induction jobs as [| j jobs IH]; intros l s Hconfig Hcache; simpl.
  - by rewrite app_nil_r.
  - destruct (deliver_cache fuel j s) as (Hc & Hcf & _).
    rewrite (completes_same_core r0 (room s)) in Hc by done.
    destruct (completes r0 j) as [entry|].
    + rewrite (cons_middle entry), app_assoc. apply IH; [congruence|].
      rewrite Hc, Hcache, Hconfig. by apply cached_most_recent.
    + apply IH; congruence.
Qed.

(** The handlers not being interrupted, the entries are pushed in the order
    in which their events arrived. *)
Lemma uninterrupted_completes r (evs : list (Host * Event.t)) entries :
  Forall2 (λ a entry, accepted a.1 r a.2 entry) evs entries →
  omap (completes r) (uninterrupted r evs) = entries.
Proof.
  induction 1 as [| [h event] [[eventName payload] ev] evs entries Hacc _ IH];
    [done|].
  destruct Hacc as (Hgate & (text & Hplain & Hparse) & Hev).
  simpl in Hgate, Hplain, Hparse, Hev. subst ev.
  apply passes_let_through in Hgate. unfold plaintext in Hplain.
  change (uninterrupted r ((h, event) :: evs)) with
    (uninterrupted_one r h event ++ uninterrupted r evs).
  rewrite omap_app, IH.
  change ((eventName, payload, event) :: entries)
    with ([(eventName, payload, event)] ++ entries).
  f_equal. unfold uninterrupted_one. rewrite Hgate.
  destruct (includes "?iv=" (Event.content event)) eqn:Hiv; simpl.
  - rewrite Hiv, andb_false_r, Hplain. unfold parsed_entry. by rewrite Hparse.
  - injection Hplain as <-. rewrite Hiv, Hgate. simpl. unfold parsed_entry.
    by rewrite Hparse.
Qed.

(** [_eventHandler] is the handler whose two parts follow each other
    directly. *)
Lemma eventHandler_uninterrupted fuel h event (s : State U) :
  (_eventHandler body digest fuel h event s).2 =
  arrivals body digest fuel (uninterrupted_one (room s) h event) s.
Proof.
  unfold uninterrupted_one, passes, _eventHandler. rewrite bind_eq.
  unfold get_room. cbn iota beta zeta.
  destruct (_ || _ || _) eqn:Hgate; cbn [negb andb arrivals deliver];
    [|destruct (includes "?iv=" (Event.content event)) eqn:Hiv;
      cbn [arrivals deliver]];
    unfold sub_on_event, sub_on_settled; rewrite ?void_state;
    unfold _eventHandler_called; rewrite bind_eq; unfold get_room;
    cbn iota beta zeta; rewrite Hgate.
  - by rewrite then_ret_state.
  - rewrite Hiv, then_ret_state.
    unfold _eventHandler_resumed, try_catch, _eventHandler_try, host.
    rewrite !bind_eq. unfold get_room. cbn iota beta zeta. rewrite Hiv, !bind_eq.
    cbn [record fst snd room].
    by destruct (Cipher_decrypt h (Event.content event) (cipher (room s))).
  - rewrite Hiv, then_ret_state.
    unfold try_catch, _eventHandler_try. rewrite !bind_eq. unfold get_room.
    cbn iota beta zeta. by rewrite Hiv.
Qed.

(** C2, amended.  Jobs of the transport and of the cipher run one after the
    other, on a room with a positive [cacheSize] whose cache starts within
    it.  The cache never exceeds [cacheSize].  A job that completes the
    decoding of an event pushes its entry at the end and, the cache being
    full, drops index 0; another job leaves the cache alone.  Once at
    least [cacheSize] entries were pushed the cache is exactly the last
    [cacheSize] of them, in the order in which they were pushed.  That is
    the order in which the events arrived when no handler is interrupted
    (each decryption settles before the next event arrives). *)
Theorem cache_bounded_fifo fuel (jobs : list Job) (s : State U) :
  let n := RoomConfig.cacheSize (config (room s)) in
  let cache_after k := cache (room (arrivals body digest fuel (take k jobs) s)) in
  let pushed := omap (completes (room s)) jobs in
  (0 < n)%Z →
  (Z.of_nat (length (cache (room s))) ≤ n)%Z →
  (∀ k, (Z.of_nat (length (cache_after k)) ≤ n)%Z) ∧
  (∀ k j, jobs !! k = Some j →
     cache_after (S k) =
       match completes (room s) j with
       | Some entry =>
           if decide (Z.of_nat (length (cache_after k)) < n)%Z
           then cache_after k ++ [entry]
           else drop 1 (cache_after k ++ [entry])
       | None => cache_after k
       end) ∧
  ((n ≤ Z.of_nat (length pushed))%Z →
     cache (room (arrivals body digest fuel jobs s)) =
       drop (length pushed - Z.to_nat n) pushed ∧
     Z.of_nat (length (cache (room (arrivals body digest fuel jobs s)))) = n) ∧
  (∀ evs entries,
     jobs = uninterrupted (room s) evs →
     Forall2 (λ a entry, accepted a.1 (room s) a.2 entry) evs entries →
     pushed = entries).
Proof.
  intros n cache_after pushed Hpos Hlen.
  assert (Hprefix : ∀ k, cache_after k =
            most_recent (Z.to_nat n)
              (cache (room s) ++ omap (completes (room s)) (take k jobs))).
  { intros k. unfold cache_after.
    refine (proj1 (arrivals_cache fuel (take k jobs) (room s)
                     (Z.to_nat n) (cache (room s)) s Hpos eq_refl eq_refl _)).
    symmetry. apply most_recent_all. lia. }
  split; [|split; [|split]].
  - intros k. rewrite Hprefix, most_recent_length. lia.
  - intros k j Hk. rewrite !Hprefix.
    rewrite (take_S_r _ _ _ Hk), omap_app. simpl.
    destruct (completes (room s) j) as [entry|]; simpl.
    + rewrite app_assoc, most_recent_snoc by lia.
      repeat case_decide; try done; lia.
    + by rewrite app_nil_r.
  - intros HN.
    specialize (Hprefix (length jobs)). unfold cache_after in Hprefix.
    rewrite firstn_all in Hprefix. rewrite Hprefix. fold pushed.
    rewrite most_recent_app by lia. split; [done|].
    rewrite most_recent_length. lia.
  - intros evs entries -> Hacc. by apply uninterrupted_completes.
Qed.

(** C3.  An event that is an echo (with [allowEcho] off), expired or
    invalid is dropped: the handler returns, the room and the application
    state are as before and the only effect is the console line, so no
    listener ran and [_error] was not emitted.  With [allowEcho] on, a
    self-authored event that is neither expired nor invalid goes through the
    [try] block like any other: once decoded it is cached and dispatched. *)
Theorem gate_drops_silently fuel h event (s : State U) :
  let signed := SignedEvent_new h event in
  let self := isAuthor signed (default "" (client_pubkey h)) in
  let allowEcho := RoomConfig.allowEcho (config (room s)) in
  ((allowEcho = false ∧ self = true) ∨ isExpired signed = true ∨
   isValid signed = false →
   ∃ flags,
     _eventHandler body digest fuel h event s =
     (Returned (), mkState (room s) (store s) (trace s ++ [Console flags]))) ∧
  (allowEcho = true → self = true →
   isExpired signed = false → isValid signed = true →
   _eventHandler body digest fuel h event s =
     try_catch (_eventHandler_try body digest fuel h event)
               (λ err, emit body digest fuel "_error" [err]) s ∧
   ∀ text eventName payload,
     plaintext h (room s) event = Success text →
     JSON_parse h text = Success (eventName, payload) →
     _eventHandler body digest fuel h event s =
       try_catch (emit body digest fuel eventName [payload; VEvent event])
                 (λ err, emit body digest fuel "_error" [err])
                 (stored event text (eventName, payload, event) s)).
Proof.
  intros signed self allowEcho. split.
  - intros Hdrop. unfold _eventHandler. rewrite bind_eq. simpl.
    fold signed. fold allowEcho. fold self.
    assert (Hcond : negb allowEcho && self || isExpired signed
                    || negb (isValid signed) = true).
    { destruct Hdrop as [[-> ->] | [-> | ->]]; simpl; [done| |];
        by rewrite ?orb_true_r. }
    rewrite Hcond. eexists. reflexivity.
  - intros Hecho Hself Hexp Hval.
    assert (Hgate : let_through h (room s) event).
    { split; [by left|done]. }
    split; [by apply gate_open|].
    intros text eventName payload Hplain Hparse.
    rewrite gate_open by done. unfold try_catch.
    by rewrite (try_decoded _ _ _ text eventName payload).
Qed.

(** ** Publishing *)

(** C5.  While [connected] is false, [pub] throws "Not connected to room!"
    and leaves the state as it was, trace included: nothing was serialized,
    encrypted or submitted, and the cache, the registry and the flag are
    unchanged. *)
Theorem pub_requires_connection fuel h eventName payload template (s : State U) :
  connected (room s) = false →
  pub body digest fuel h eventName payload template s =
  (Thrown (VError "Not connected to room!"), s).
Proof. intros Hc. unfold pub. rewrite bind_eq. simpl. by rewrite Hc. Qed.

Lemma pub_try_failure h eventName payload template err effects (s : State U) :
  pub_failure digest h (room s) eventName payload template err effects →
  pub_try digest h eventName payload template s = (Thrown err, after effects s).
Proof.
  intros Hfail. unfold pub_try, after, host.
  destruct Hfail as [err Hs | text err Hs He | text content err Hs He Hp];
    unfold sealed, seal_effects in *; steps; rewrite Hs; steps.
  - reflexivity.
  - destruct (RoomConfig.encryption (config (room s))); [|done].
    steps. rewrite He. steps. by rewrite <- app_assoc.
  - destruct (RoomConfig.encryption (config (room s))).
    + steps. rewrite He. steps. rewrite Hp. steps. by rewrite <- !app_assoc.
    + injection He as <-. steps. rewrite Hp. steps. by rewrite <- !app_assoc.
Qed.

Lemma pub_try_returned h eventName payload template o (s s' : State U) :
  pub_try digest h eventName payload template s = (Returned o, s') →
  ∃ text content ev,
    JSON_stringify h eventName payload = Success text ∧
    sealed h (room s) text = Success content ∧
    client_publish h (pub_draft digest h (room s) template content) = Success ev ∧
    o = Some ev ∧
    s' = after ([Stringified eventName payload] ++ seal_effects (room s) text ++
                [Published (pub_draft digest h (room s) template content)]) s.
Proof.
  unfold pub_try, after, host, sealed, seal_effects. steps.
  destruct (JSON_stringify h eventName payload) as [text|err]; steps; [|done].
  destruct (RoomConfig.encryption (config (room s))); steps.
  - destruct (Cipher_encrypt h text (cipher (room s))) as [content|err] eqn:He;
      steps; [|done].
    destruct (client_publish h _) as [ev|err] eqn:Hp; steps; [|done].
    intros [= <- <-]. exists text, content, ev.
    by rewrite <- !app_assoc.
  - destruct (client_publish h _) as [ev|err] eqn:Hp; steps; [|done].
    intros [= <- <-]. exists text, text, ev.
    by rewrite <- !app_assoc.
Qed.

Lemma pub_try_no_fuel h eventName payload template (s : State U) :
  (pub_try digest h eventName payload template s).1 ≠ OutOfFuel.
Proof.
  unfold pub_try, host. steps.
  destruct (JSON_stringify h eventName payload) as [text|err]; steps; [|done].
  destruct (RoomConfig.encryption (config (room s))); steps.
  - destruct (Cipher_encrypt h text (cipher (room s))) as [content|err]; steps; [|done].
    destruct (client_publish h _) as [ev|err]; steps; done.
  - destruct (client_publish h _) as [ev|err]; steps; done.
Qed.

(** C6, amended.  While connected, a failure of the serialization, of the
    encryption or of the submission is caught: [_error] is dispatched with
    the causing error, and when that dispatch returns [pub] resolves with
    undefined.  [pub] then throws only what a listener called by that
    dispatch threw. *)
Theorem pub_failure_reported fuel h eventName payload template err effects
    (s : State U) :
  connected (room s) = true →
  pub_failure digest h (room s) eventName payload template err effects →
  let reported :=
    emit body digest fuel "_error" [err] (after (effects ++ [Console [err]]) s) in
  (pub body digest fuel h eventName payload template s).2 = reported.2 ∧
  (reported.1 = Returned () →
   (pub body digest fuel h eventName payload template s).1 = Returned None) ∧
  (∀ thrown,
     (pub body digest fuel h eventName payload template s).1 = Thrown thrown →
     reported.1 = Thrown thrown).
Proof.
  intros Hc Hfail reported. unfold pub. rewrite bind_eq. simpl. rewrite Hc. simpl.
  unfold try_catch. rewrite (pub_try_failure _ _ _ _ _ _ _ Hfail).
  steps. unfold after in *. simpl in *. rewrite <- app_assoc. fold reported.
  destruct reported as [[[]|e|] s']; simpl; repeat split; try done.
  by intros thrown [= <-].
Qed.

Lemma count_tag_app t l1 l2 : count_tag t (l1 ++ l2) = count_tag t l1 + count_tag t l2.
Proof. unfold count_tag. by rewrite List.filter_app, length_app. Qed.

Lemma count_named_app n l1 l2 :
  count_named n (l1 ++ l2) = count_named n l1 + count_named n l2.
Proof. unfold count_named. by rewrite List.filter_app, length_app. Qed.

(** [String(now() + expiration)] on some numbers: the sum is the sum of
    doubles, printed as JavaScript prints it. *)
Lemma String_of_sums :
  String_ (1000 + 86400000)%float = "86401000" ∧
  String_ (1000 + 1e21)%float = "1e+21" ∧
  String_ (9007199254740992 + 1001)%float = "9007199254741992" ∧
  String_ (1 / 10 + 2 / 10)%float = "0.30000000000000004" ∧
  String_ (1 / 10000000 + 0)%float = "1e-7" ∧
  String_ (1 / 1000000 + 0)%float = "0.000001" ∧
  String_ (1000 + 0 / 0)%float = "NaN" ∧
  String_ (1000 + 1 / 0)%float = "Infinity" ∧
  String_ (-0 + -0)%float = "0".
Proof. by vm_compute. Qed.

(** C7.  When [pub] succeeds, one draft was submitted, and its tags are the
    configured tags, then the tags of the template, then [["h", id.hex]],
    then [["expiration", String(now() + expiration)]]: one "h" pair and one
    "expiration" pair more than the configured and template tags hold.  The
    other fields come from the template without its [tags]. *)
Theorem pub_tags fuel h eventName payload template ev (s s' : State U) :
  pub body digest fuel h eventName payload template s = (Returned (Some ev), s') →
  let conf_tags := RoomConfig.tags (config (room s)) in
  let temp_tags := default [] (EventTemplate.p_tags template) in
  let h_tag := ["h"; hex (id digest (room s))] in
  let expiration_tag :=
    ["expiration";
     String_ (now h + RoomConfig.expiration (config (room s)))%float] in
  ∃ text draft,
    trace s' = trace s ++ [Stringified eventName payload] ++
               seal_effects (room s) text ++ [Published draft] ∧
    client_publish h draft = Success ev ∧
    room s' = room s ∧
    Draft.tags draft = conf_tags ++ temp_tags ++ [h_tag; expiration_tag] ∧
    count_tag h_tag (Draft.tags draft) =
      S (count_tag h_tag (conf_tags ++ temp_tags)) ∧
    count_named "expiration" (Draft.tags draft) =
      S (count_named "expiration" (conf_tags ++ temp_tags)) ∧
    Draft.kind draft =
      default (RoomConfig.kind (config (room s))) (EventTemplate.p_kind template) ∧
    Draft.created_at draft = EventTemplate.p_created_at template ∧
    sealed h (room s) text = Success (Draft.content draft).
Proof.
  intros Hpub conf_tags temp_tags h_tag expiration_tag.
  unfold pub in Hpub. rewrite bind_eq in Hpub. simpl in Hpub.
  destruct (connected (room s)); simpl in Hpub; [|done].
  unfold try_catch in Hpub.
  destruct (pub_try digest h eventName payload template s) as [[o|err|] s1] eqn:Htry.
  - injection Hpub as -> ->.
    apply pub_try_returned in Htry
      as (text & content & ev' & Hs & He & Hp & [= <-] & ->).
    exists text, (pub_draft digest h (room s) template content).
    repeat split; try done.
    + simpl. fold conf_tags temp_tags h_tag expiration_tag.
      rewrite app_assoc, count_tag_app. unfold count_tag at 2. simpl.
      repeat case_bool_decide; simpl; try done; lia.
    + simpl. fold conf_tags temp_tags h_tag expiration_tag.
      rewrite app_assoc, count_named_app. unfold count_named at 2. simpl.
      repeat case_bool_decide; simpl; try done; lia.
  - revert Hpub. steps.
    destruct (emit body digest fuel "_error" [err] _) as [[[]|e|] s2]; by steps.
  - done.
Qed.

(** ** Dispatch *)

Lemma emit_phases n eventName args (s : State U) :
  emit body digest (S n) eventName args s =
  (named_phase body digest n eventName args ;;
   wildcard_phase body digest n eventName args) s.
Proof.
  unfold named_phase, wildcard_phase. simpl. rewrite !bind_eq.
  destruct (_getFn_Set eventName s) as [[fns|err|] s1]; done.
Qed.

Lemma emit_named_thrown n eventName args err (s s1 : State U) :
  named_phase body digest n eventName args s = (Thrown err, s1) →
  emit body digest (S n) eventName args s = (Thrown err, s1).
Proof. intros H. by rewrite emit_phases, bind_eq, H. Qed.

Lemma cached_last (n : Z) c (entry : CacheEntry) :
  (0 < n)%Z → last (cached n c entry) = Some entry.
Proof.
  intros Hn. unfold cached. rewrite length_app. simpl.
  destruct (Z.gtb_spec (Z.of_nat (length c + 1)) n).
  - destruct c as [|x c]; simpl in *; [lia|]. by rewrite last_snoc.
  - by rewrite last_snoc.
Qed.


(** ** [once] *)

Lemma forwards_app w t1 t2 : forwards w (t1 ++ t2) = forwards w t1 + forwards w t2.
Proof. unfold forwards. by rewrite List.filter_app, length_app. Qed.

Lemma forwards_applied w fn args t : forwards w (t ++ [Applied fn args]) = forwards w t.
Proof. rewrite forwards_app. unfold forwards at 2. simpl. lia. Qed.

Lemma forwards_other w fn u args t :
  fn ≠ w → forwards w (t ++ [Forwarded fn u args]) = forwards w t.
Proof.
  intros Hne. rewrite forwards_app. unfold forwards at 2. simpl.
  rewrite bool_decide_eq_false_2 by done. simpl. lia.
Qed.

Lemma forwards_self w u args t :
  forwards w (t ++ [Forwarded w u args]) = S (forwards w t).
Proof.
  rewrite forwards_app. unfold forwards at 2. simpl.
  rewrite bool_decide_eq_true_2 by done. simpl. lia.
Qed.

Lemma elem_of_Set_delete fn g fns : g ∈ Set_delete fn fns ↔ g ∈ fns ∧ g ≠ fn.
Proof.
  unfold Set_delete. rewrite !list_elem_of_In, filter_In.
  rewrite negb_true_iff, bool_decide_eq_false. done.
Qed.

(** Once retired, a closure stays retired: nothing a dispatch does can
    register it again or make it call its function. *)
Lemma retired_listeners k w c call (s : State U) name fns :
  retired k w c call s → events (room s) !! name = Some fns →
  Forall (λ fn, fn ≠ w) fns.
Proof.
  intros (Hreg & _) Hfns. apply Forall_forall.
  intros fn Hfn ->. by apply (Hreg name fns).
Qed.

Lemma retired_events k w c call (s : State U) name fns :
  retired k w c call s → Forall (λ fn, fn ≠ w) fns →
  retired k w c call
    (mkState (set_events (<[name := fns]> (events (room s))) (room s))
             (store s) (trace s)).
Proof.
  intros (Hreg & Hk & Hc & Hcall) Hfns. split; [|done].
  simpl. intros name' fns'. rewrite lookup_insert. case_decide.
  - intros [= <-] Hw. rewrite Forall_forall in Hfns. by apply (Hfns w).
  - apply Hreg.
Qed.

Lemma retired_closures k en u c call (s : State U) :
  retired k (OnceFn k en u) c call s →
  (∀ name u', OnceFn (closures (room s)) name u' ≠ OnceFn k en u) ∧
  retired k (OnceFn k en u) c call
    (mkState (set_closures (S (closures (room s))) (room s)) (store s) (trace s)).
Proof.
  intros (Hreg & Hk & Hc & Hcall). split.
  - intros name' u' [= <- _ _]. lia.
  - split; [done|]. simpl. split; [lia|done].
Qed.

Lemma retired_unsubscribed k w c call (s : State U) :
  retired k w c call s →
  retired k w c call (mkState (room s) (store s) (trace s ++ [Unsubscribed])).
Proof.
  intros (Hreg & Hk & Hc & Hcall). repeat split; simpl; try done.
  - rewrite forwards_app. unfold forwards at 2. simpl. lia.
  - apply elem_of_app. by left.
Qed.

Lemma retired_call k w c call (s : State U) fn args :
  retired k w c call s → fn ≠ w →
  retired k w c call (mkState (room s) (store s) (trace s ++ [Applied fn args])) ∧
  ∀ u, retired k w c call
         (mkState (room s) (store s) (trace s ++ [Forwarded fn u args])).
Proof.
  intros (Hreg & Hk & Hc & Hcall) Hfn. split.
  - repeat split; simpl; try done.
    + by rewrite forwards_applied.
    + apply elem_of_app. by left.
  - intros u'. repeat split; simpl; try done.
    + by rewrite forwards_other.
    + apply elem_of_app. by left.
Qed.

Ltac retired_frame :=
  first [ by (intros; eapply retired_listeners)
        | by (intros; apply retired_events)
        | by (intros; apply retired_closures)
        | by (intros; apply retired_unsubscribed)
        | by (intros; apply retired_call)
        | by intros ? ? (? & ? & ? & ?)
        | done ].

Lemma retired_emit k en u c call fuel name args (s : State U) :
  retired k (OnceFn k en u) c call s →
  retired k (OnceFn k en u) c call (emit body digest fuel name args s).2.
Proof.
  intros Hs.
  refine (proj1 (keeps_emit (retired k (OnceFn k en u) c call)
                   (λ _ fn, fn ≠ OnceFn k en u)
                   _ _ _ _ _ _ _ _ fuel name args s Hs)); retired_frame.
Qed.

Lemma retired_run k en u c call n p (s : State U) :
  retired k (OnceFn k en u) c call s →
  retired k (OnceFn k en u) c call (run digest (emit body digest n) p s).2.
Proof.
  intros Hs.
  refine (proj1 (keeps_run (retired k (OnceFn k en u) c call)
                   (λ _ fn, fn ≠ OnceFn k en u)
                   _ _ _ _ _ _ _ (emit body digest n) p _ s Hs)); try retired_frame.
  intros name args s' Hs'. split; [|done]. by apply retired_emit.
Qed.

Lemma retired_wildcard k en u c call n name args (s : State U) :
  retired k (OnceFn k en u) c call s →
  retired k (OnceFn k en u) c call (wildcard_phase body digest n name args s).2.
Proof.
  intros Hs. unfold wildcard_phase.
  refine (proj1 (keeps_bind (retired k (OnceFn k en u) c call) _ _
                   (Forall (λ fn, fn ≠ OnceFn k en u)) (λ _, True) _ _ s Hs)).
  - apply (keeps_getFn _ (λ _ fn, fn ≠ OnceFn k en u)); retired_frame.
  - intros all Hall.
    apply (keeps_for_all _ (λ _ fn, fn ≠ OnceFn k en u)) with (name' := "*");
      try retired_frame.
    intros name' args' s' Hs'. split; [|done]. by apply retired_emit.
Qed.

Lemma bind_returns {A B} (m : M U A) (f : A → M U B) a (s : State U) :
  (m s).1 = Returned a → (m ≫= f) s = f a (m s).2.
Proof. rewrite bind_eq. destruct (m s) as [c s']. simpl. by intros ->. Qed.

(** A quiet listener returns, and never uses the [emit] it is given. *)
Lemma quiet_run emit_ emit_' p (s : State U) :
  quiet p →
  (run digest emit_ p s).1 = Returned () ∧
  run digest emit_ p s = run digest emit_' p s.
Proof.
  revert s. induction p as [| | k IH | x k IH | n u k IH | n u k IH
                            | n u k IH | n k IH | n args k IH | k IH];
    intros s Hq; simpl in *; try done.
  - by apply IH.
  - rewrite !(bind_returns _ _ ()) by done. by apply IH.
  - destruct Hq as [Hn Hq].
    rewrite !(bind_returns _ _ ()) by apply on_returns, plain_accepts, Hn.
    by apply IH.
  - destruct Hq as [Hn Hq].
    rewrite !(bind_returns _ _ ()) by apply once_returns, plain_accepts, Hn.
    by apply IH.
  - destruct Hq as [Hn Hq].
    rewrite !(bind_returns _ _ ()) by apply remove_returns, plain_accepts, Hn.
    by apply IH.
  - destruct Hq as [Hn Hq].
    rewrite !(bind_returns _ _ ()) by apply prune_returns, plain_accepts, Hn.
    by apply IH.
Qed.

(** While the closure waits for its first call, quiet listeners leave it
    waiting. *)
Lemma pending_listeners k en w c (s : State U) name fns :
  pending k en w c s → events (room s) !! name = Some fns →
  Forall (λ fn, fn = w → name = en) fns.
Proof.
  intros (_ & Hreg & _) Hfns. apply Forall_forall.
  intros fn Hfn ->. by apply (Hreg name fns).
Qed.

Lemma pending_events k en w c (s : State U) name fns :
  pending k en w c s → Forall (λ fn, fn = w → name = en) fns →
  pending k en w c
    (mkState (set_events (<[name := fns]> (events (room s))) (room s))
             (store s) (trace s)).
Proof.
  intros (Hown & Hreg & Hk & Hc) Hfns. split; [|split; [|done]]; simpl.
  - rewrite lookup_insert. by case_decide.
  - intros name' fns'. rewrite lookup_insert. case_decide.
    + intros [= <-] Hw. subst name'. rewrite Forall_forall in Hfns.
      by apply (Hfns w).
    + apply Hreg.
Qed.

Lemma pending_closures k en u c (s : State U) :
  pending k en (OnceFn k en u) c s →
  (∀ name u', OnceFn (closures (room s)) name u' = OnceFn k en u → name = en) ∧
  pending k en (OnceFn k en u) c
    (mkState (set_closures (S (closures (room s))) (room s)) (store s) (trace s)).
Proof.
  intros (Hown & Hreg & Hk & Hc). split.
  - intros name' u' [= <- _ _]. lia.
  - split; [done|]. split; [done|]. simpl. split; [lia|done].
Qed.

Lemma pending_remove k en u c name fn (s : State U) :
  pending k en (OnceFn k en u) c s →
  pending k en (OnceFn k en u) c (remove name fn s).2.
Proof.
  intros Hs.
  refine (proj1 (keeps_remove (pending k en (OnceFn k en u) c)
                   (λ name fn, fn = OnceFn k en u → name = en)
                   _ _ name fn s Hs)).
  - intros. by eapply pending_listeners.
  - intros. by apply pending_events.
Qed.

Lemma pending_run emit_ k en u c p (s : State U) :
  quiet p →
  pending k en (OnceFn k en u) c s →
  pending k en (OnceFn k en u) c (run digest emit_ p s).2.
Proof.
  set (w := OnceFn k en u). intros Hq Hs.
  rewrite (proj2 (quiet_run _ (λ _ _, mret ()) p s Hq)).
  refine (proj1 (keeps_run (pending k en w c) (λ name fn, fn = w → name = en)
                   _ _ _ _ _ _ _ (λ _ _, mret ()) p _ s Hs)).
  - intros. by eapply pending_listeners.
  - done.
  - intros. by apply pending_events.
  - intros. by apply pending_closures.
  - intros s' b (Hown & Hreg & Hk & Hc). done.
  - intros s' x (Hown & Hreg & Hk & Hc). done.
  - intros s' (Hown & Hreg & Hk & Hc). repeat split; simpl; try done.
    rewrite forwards_app. unfold forwards at 2. simpl. lia.
  - intros name' args' s' Hs'. done.
Qed.

Lemma pending_accepts k en w c (s : State U) :
  pending k en w c s → accepts (room s) en = true.
Proof. intros ([fns Hown] & _). by apply (accepts_own _ _ fns). Qed.

Lemma pending_apply emit_ k en u c fn args (s : State U) :
  fn ≠ OnceFn k en u → quiet_fn body en fn →
  pending k en (OnceFn k en u) c s →
  (Function_apply body digest emit_ fn args s).1 = Returned () ∧
  pending k en (OnceFn k en u) c (Function_apply body digest emit_ fn args s).2.
Proof.
  set (w := OnceFn k en u). intros Hne Hq (Hown & Hreg & Hk & Hc).
  unfold Function_apply. steps.
  set (s1 := mkState (room s) (store s) (trace s ++ [Applied fn args])).
  assert (Hs1 : pending k en w c s1).
  { repeat split; simpl; try done. by rewrite forwards_applied. }
  destruct fn as [u' | k' n' u']; simpl in Hq.
  - split; [by apply quiet_run|]. by apply pending_run.
  - destruct Hq as [-> Hq].
    rewrite (bind_returns _ _ ()) by (by eapply remove_returns, pending_accepts).
    pose proof (pending_remove k en u c en (OnceFn k' en u') s1 Hs1) as Hs2.
    set (s2 := (remove en (OnceFn k' en u') s1).2) in *.
    steps.
    set (s3 := mkState (room s2) (store s2) (trace s2 ++ [Forwarded (OnceFn k' en u') u' args])).
    assert (Hs3 : pending k en w c s3).
    { destruct Hs2 as (Hown2 & Hreg2 & Hk2 & Hc2).
      repeat split; simpl; try done. by rewrite forwards_other. }
    split; [by apply quiet_run|]. by apply pending_run.
Qed.

Lemma pending_for_fns emit_ k en u c fns args (s : State U) :
  Forall (λ fn, fn ≠ OnceFn k en u) fns → Forall (quiet_fn body en) fns →
  pending k en (OnceFn k en u) c s →
  (for_fns body digest emit_ fns args s).1 = Returned () ∧
  pending k en (OnceFn k en u) c (for_fns body digest emit_ fns args s).2.
Proof.
  intros Hne. revert s. induction Hne as [| fn fns Hfn Hfns IH]; intros s Hq Hs; simpl.
  - done.
  - inversion Hq as [| ? ? Hq1 Hq2]; subst.
    destruct (pending_apply emit_ k en u c fn args s Hfn Hq1 Hs) as [Hret Hs'].
    rewrite (bind_returns _ _ ()) by done. by apply IH.
Qed.

Lemma for_fns_app emit_ fns1 fns2 args (s : State U) :
  for_fns body digest emit_ (fns1 ++ fns2) args s =
  (for_fns body digest emit_ fns1 args ;; for_fns body digest emit_ fns2 args) s.
Proof.
  revert s. induction fns1 as [| fn fns1 IH]; intros s; simpl; [done|].
  rewrite !bind_eq.
  destruct (Function_apply body digest emit_ fn args s) as [[[]|err|] s1]; try done.
Qed.

(** [once] on a room whose closures were all allocated by [once], under a
    name that the registry accepts: the new closure is appended to the
    listeners of the name and waits there. *)
Lemma once_pending en u (s : State U) :
  accepts (room s) en = true →
  allocated (room s) →
  let w := OnceFn (closures (room s)) en u in
  let s1 := (once en u s).2 in
  pending (closures (room s)) en w (forwards w (trace s)) s1 ∧
  events (room s1) !! en = Some (listeners en (room s) ++ [w]) ∧
  Forall (λ fn, fn ≠ w) (listeners en (room s)).
Proof.
  intros Hacc Halloc w s1.
  assert (Hfresh : ∀ name fns, events (room s) !! name = Some fns → w ∉ fns).
  { intros name fns Hfns Hw. pose proof (Halloc name fns _ _ _ Hfns Hw). lia. }
  assert (Hnew : Forall (λ fn, fn ≠ w) (listeners en (room s))).
  { unfold listeners. destruct (events (room s) !! en) as [fns|] eqn:E; simpl.
    - apply Forall_forall. intros fn Hfn ->. by apply (Hfresh en fns).
    - constructor. }
  assert (Hadd : Set_add w (listeners en (room s)) = listeners en (room s) ++ [w]).
  { unfold Set_add. case_decide as Hin; [|done].
    rewrite Forall_forall in Hnew. by destruct (Hnew w Hin). }
  assert (Hs1 : s1 =
            mkState (set_events (<[en := listeners en (room s) ++ [w]]>
                                   (events (room s)))
                       (set_closures (S (closures (room s))) (room s)))
                    (store s) (trace s)).
  { unfold s1. rewrite once_state, on_state. cbn [room store trace].
    replace (accepts (set_closures (S (closures (room s))) (room s)) en)
      with (accepts (room s) en) by done.
    rewrite Hacc. cbn [snd]. fold w.
    replace (listeners en (set_closures (S (closures (room s))) (room s)))
      with (listeners en (room s)) by done.
    by rewrite Hadd. }
  rewrite Hs1. split; [|split; [|done]].
  - split; [|split; [|split]]; simpl.
    + by rewrite lookup_insert_eq.
    + intros name fns. rewrite lookup_insert. case_decide; [done|].
      intros Hfns Hw. by destruct (Hfresh name fns Hfns).
    + lia.
    + done.
  - simpl. by rewrite lookup_insert_eq.
Qed.

Lemma pending_remove_self k en u c (s : State U) :
  pending k en (OnceFn k en u) c s →
  let s' := (remove en (OnceFn k en u) s).2 in
  (∀ name fns, events (room s') !! name = Some fns → OnceFn k en u ∉ fns) ∧
  closures (room s') = closures (room s) ∧ trace s' = trace s.
Proof.
  intros Hs s'. pose proof (pending_accepts _ _ _ _ _ Hs) as Hacc.
  destruct Hs as (Hown & Hreg & Hk & Hc).
  unfold s'. rewrite remove_state, Hacc. cbn [snd room store trace].
  split; [|done]. unfold set_events. cbn [events].
  intros name fns. rewrite lookup_insert. case_decide.
  - intros [= <-]. rewrite elem_of_Set_delete. tauto.
  - intros Hfns Hw. by destruct (Hreg name fns Hfns Hw).
Qed.

Lemma Function_apply_once emit_ k en u args (s : State U) :
  Function_apply body digest emit_ (OnceFn k en u) args s =
  (remove en (OnceFn k en u) ;;
   record (Forwarded (OnceFn k en u) u args) ;;
   run digest emit_ (body u args))
    (mkState (room s) (store s) (trace s ++ [Applied (OnceFn k en u) args])).
Proof. reflexivity. Qed.

(** The first call of the closure: it leaves the registry, calls the
    function it wraps once, and is retired whatever that function does. *)
Lemma pending_apply_self k en u c n args (s : State U) :
  let w := OnceFn k en u in
  pending k en w c s →
  retired k w (S c) (Forwarded w u args)
    (Function_apply body digest (emit body digest n) w args s).2.
Proof.
  intros w (Hown & Hreg & Hk & Hc). subst w. rewrite Function_apply_once.
  set (s1 := mkState (room s) (store s) (trace s ++ [Applied (OnceFn k en u) args])).
  assert (Hs1 : pending k en (OnceFn k en u) c s1).
  { repeat split; simpl; try done. by rewrite forwards_applied. }
  rewrite (bind_returns _ _ ()) by (by eapply remove_returns, pending_accepts).
  destruct (pending_remove_self k en u c s1 Hs1) as (Hreg2 & Hcl2 & Htr2).
  set (s2 := (remove en (OnceFn k en u) s1).2) in *.
  steps.
  apply retired_run. repeat split; simpl; try done.
  - rewrite Hcl2. simpl. lia.
  - rewrite forwards_self, Htr2. destruct Hs1 as (_ & _ & _ & ->). done.
  - apply elem_of_app. right. by apply list_elem_of_singleton.
Qed.

(** The first dispatch after [once], with quiet listeners ahead. *)
Lemma first_emit_retires k en u c n args fns (s : State U) :
  let w := OnceFn k en u in
  pending k en w c s →
  events (room s) !! en = Some (fns ++ [w]) →
  Forall (λ fn, fn ≠ w) fns → Forall (quiet_fn body en) fns →
  retired k w (S c) (Forwarded w u args) (emit body digest (S n) en args s).2.
Proof.
  intros w Hs Hev Hne Hq. subst w.
  rewrite emit_phases, bind_eq. unfold named_phase at 1.
  rewrite bind_eq, getFn_Set_eq, (accepts_own _ _ _ Hev).
  unfold listeners. rewrite Hev.
  change (default [] (Some (fns ++ [OnceFn k en u]))) with (fns ++ [OnceFn k en u]).
  cbn [fst snd]. rewrite for_fns_app, bind_eq.
  destruct (pending_for_fns (emit body digest n) k en u c fns args s Hne Hq Hs)
    as [Hret Hs'].
  destruct (for_fns body digest (emit body digest n) fns args s) as [o s'].
  simpl in Hret, Hs'. subst o. simpl. rewrite bind_eq.
  pose proof (pending_apply_self k en u c n args s' Hs') as Hs''.
  destruct (Function_apply body digest (emit body digest n) (OnceFn k en u) args s')
    as [[[]|err|] s'']; simpl in *; try done.
  by apply retired_wildcard.
Qed.

Lemma retired_emits k en u c call fuel name argss (s : State U) :
  retired k (OnceFn k en u) c call s →
  retired k (OnceFn k en u) c call (emits body digest fuel name argss s).
Proof.
  revert s. induction argss as [| args argss IH]; intros s Hs; simpl; [done|].
  apply IH. by apply retired_emit.
Qed.

Lemma retired_dispatches k en u c call fuel es (s : State U) :
  retired k (OnceFn k en u) c call s →
  retired k (OnceFn k en u) c call (dispatches body digest fuel es s).
Proof.
  revert s. induction es as [| [name args] es IH]; intros s Hs; simpl; [done|].
  apply IH. by apply retired_emit.
Qed.

Lemma once_returned name u (s : State U) :
  (once name u s).1 = Returned () → accepts (room s) name = true.
Proof.
  rewrite once_state, on_state. cbn [room].
  replace (accepts (set_closures (S (closures (room s))) (room s)) name)
    with (accepts (room s) name) by done.
  by destruct (accepts (room s) name).
Qed.


(** ** The wildcard loop *)

(** A quiet listener leaves no trace of its own, and the flag as it is. *)
Lemma quiet_run_rest emit_ p (s : State U) :
  quiet p →
  trace (run digest emit_ p s).2 = trace s ∧
  connected (room (run digest emit_ p s).2) = connected (room s).
Proof.
  revert s. induction p as [| | k IH | x k IH | n u k IH | n u k IH
                            | n u k IH | n k IH | n args k IH | k IH];
    intros s Hq; simpl in *; try done.
  - by apply IH.
  - rewrite (bind_returns _ _ ()) by done.
    by destruct (IH (put_store x s).2 Hq) as [-> ->].
  - destruct Hq as [Hn Hq].
    rewrite (bind_returns _ _ ()) by apply on_returns, plain_accepts, Hn.
    destruct (IH (on n (UserFn u) s).2 Hq) as [-> ->].
    by destruct (on_registry_only n (UserFn u) s) as (_ & _ & _ & -> & _ & _ & ->).
  - destruct Hq as [Hn Hq].
    rewrite (bind_returns _ _ ()) by apply once_returns, plain_accepts, Hn.
    destruct (IH (once n u s).2 Hq) as [-> ->].
    by destruct (once_registry_only n u s) as (_ & _ & _ & -> & _ & _ & ->).
  - destruct Hq as [Hn Hq].
    rewrite (bind_returns _ _ ()) by apply remove_returns, plain_accepts, Hn.
    destruct (IH (remove n (UserFn u) s).2 Hq) as [-> ->].
    by destruct (remove_registry_only n (UserFn u) s) as (_ & _ & _ & -> & _ & _ & ->).
  - destruct Hq as [Hn Hq].
    rewrite (bind_returns _ _ ()) by apply prune_returns, plain_accepts, Hn.
    destruct (IH (prune n s).2 Hq) as [-> ->].
    by destruct (prune_registry_only n s) as (_ & _ & _ & -> & _ & _ & ->).
Qed.

Lemma quiet_run_trace emit_ p (s : State U) :
  quiet p → trace (run digest emit_ p s).2 = trace s.
Proof. intros Hq. by apply quiet_run_rest. Qed.

Lemma quiet_run_connected emit_ p (s : State U) :
  quiet p → connected (room (run digest emit_ p s).2) = connected (room s).
Proof. intros Hq. by apply quiet_run_rest. Qed.

(** What the wildcard loop passes on: the listener at index [i] is called
    with the name prepended [i + 1] times.  Stated for wildcard listeners
    that are quiet functions of the application. *)
Lemma for_all_prepends emit_ name (us : list nat) args (s : State U) :
  Forall (λ u, ∀ args, quiet (body u args)) us →
  trace (for_all body digest emit_ name (UserFn <$> us) args s).2 =
  trace s ++
  imap (λ i u, Applied (UserFn u) (replicate (S i) (VString name) ++ args)) us.
Proof.
  intros Hq. revert args s.
  induction Hq as [| u us Hu Hus IH]; intros args s; simpl.
  - by rewrite app_nil_r.
  - assert (Hret : (Function_apply body digest emit_ (UserFn u)
                      (VString name :: args) s).1 = Returned ()).
    { unfold Function_apply. steps. by apply quiet_run. }
    rewrite (bind_returns _ _ ()) by done. rewrite IH.
    unfold Function_apply. steps. rewrite quiet_run_trace by done. simpl.
    rewrite <- app_assoc. simpl. do 2 f_equal.
    apply imap_ext. intros i u' _. simpl. do 2 f_equal.
    by rewrite (cons_middle (VString name)), app_assoc, <- replicate_S_end.
Qed.

(** ** Membership *)

Lemma members_kept h r :
  members h r = author <$> filter (kept_by_members h r) (cache r).
Proof.
  unfold members.
  destruct (RoomConfig.inactiveLimit (config r)) as [limit|] eqn:Hlimit.
  - induction (cache r) as [| e c IH]; [done|]. simpl.
    rewrite filter_cons.
    destruct (decide (kept_by_members h r e)) as [Hk|Hk];
      unfold kept_by_members in Hk; rewrite Hlimit in Hk.
    + rewrite Hk. simpl. by rewrite IH.
    + apply not_true_is_false in Hk. by rewrite Hk.
  - induction (cache r) as [| e c IH]; [done|]. simpl.
    rewrite filter_cons, decide_True; [simpl; by rewrite IH|].
    unfold kept_by_members. by rewrite Hlimit.
Qed.

Lemma count_kept (P : CacheEntry → Prop) `{∀ e, Decision (P e)} key c :
  length (filter (λ k, k = key) (author <$> filter P c)) =
  length (filter (λ e, P e ∧ author e = key) c).
Proof.
  induction c as [| e c IH]; [done|]. rewrite !(filter_cons _ e).
  destruct (decide (P e)) as [HP|HP].
  - rewrite fmap_cons, filter_cons.
    destruct (decide (author e = key)) as [Hk|Hk].
    + rewrite decide_True by done. simpl. by rewrite IH.
    + rewrite decide_False by tauto. done.
  - rewrite decide_False by tauto. done.
Qed.


(** ** Identity *)

(** The key is the digest of the secret, the identifier the digest of the
    key, and both depend on the secret only. *)
Lemma identity_of_secret loaded_at secret config :
  let r := NostrRoom_new digest loaded_at secret config in
  cipher r = digest (Buff_str secret) ∧
  id digest r = digest (digest (Buff_str secret)).
Proof. done. Qed.

Lemma identity_deterministic loaded_at loaded_at' secret config config' :
  let r := NostrRoom_new digest loaded_at secret config in
  let r' := NostrRoom_new digest loaded_at' secret config' in
  cipher r = cipher r' ∧ id digest r = id digest r' ∧
  hex (id digest r) = hex (id digest r').
Proof. done. Qed.

(** Whether the identifier differs from the key is a property of the
    digest: it does exactly when the key is not a fixed point of it. *)
Lemma identity_differs_iff r :
  id digest r ≠ cipher r ↔ digest (cipher r) ≠ cipher r.
Proof. done. Qed.

(** ** Allocation of closures *)

Lemma allocated_new loaded_at secret config :
  allocated (NostrRoom_new digest loaded_at secret config).
Proof. intros name fns k n u. simpl. by rewrite lookup_empty. Qed.

Lemma allocated_on name u' (s : State U) :
  allocated (room s) → allocated (room (on name (UserFn u') s).2).
Proof.
  intros Halloc name' fns k n u. rewrite on_state.
  destruct (accepts (room s) name); [|apply Halloc].
  cbn [snd room]. unfold set_events. cbn [events closures].
  rewrite lookup_insert. case_decide.
  - intros [= <-]. unfold Set_add. case_decide.
    + unfold listeners. destruct (events (room s) !! name) as [fns'|] eqn:E; simpl.
      * by apply (Halloc name fns' k n u).
      * intros Hin. by apply elem_of_nil in Hin.
    + rewrite elem_of_app, list_elem_of_singleton. intros [Hin | [=]].
      unfold listeners in Hin.
      destruct (events (room s) !! name) as [fns'|] eqn:E; simpl in Hin.
      * by apply (Halloc name fns' k n u).
      * by apply elem_of_nil in Hin.
  - apply Halloc.
Qed.

Lemma pair_of_fst {A B} (p : A * B) (a : A) : p.1 = a → p = (a, p.2).
Proof. destruct p. simpl. by intros ->. Qed.

(** ** Extras: the registry *)

Lemma Set_add_twice fn fns : Set_add fn (Set_add fn fns) = Set_add fn fns.
Proof.
  unfold Set_add at 1. rewrite decide_True; [done|].
  unfold Set_add. case_decide; [done|]. apply elem_of_app. right.
  by apply list_elem_of_singleton.
Qed.

(** X1.  Registering a function that is already registered under the name
    changes nothing: [on] twice is [on] once.  (Under a name that the
    registry does not accept both calls throw and change nothing.) *)
Theorem on_twice_is_on_once name fn (s : State U) :
  on name fn (on name fn s).2 = on name fn s.
Proof.
  rewrite (on_state name fn s).
  destruct (accepts (room s) name) eqn:Hacc; cbn [snd]; rewrite on_state.
  - cbn [room store trace]. rewrite accepts_insert, listeners_insert.
    rewrite decide_True by done. f_equal. f_equal.
    unfold set_events. simpl. rewrite insert_insert_eq. do 2 f_equal.
    apply Set_add_twice.
  - by rewrite Hacc.
Qed.

Lemma Set_delete_absent fn fns : fn ∉ fns → Set_delete fn fns = fns.
Proof.
  intros Hfn. unfold Set_delete. induction fns as [| g fns IH]; simpl; [done|].
  apply not_elem_of_cons in Hfn as [Hne Hfn].
  rewrite bool_decide_eq_false_2 by done. simpl. by rewrite IH.
Qed.

Lemma Set_delete_app fn fns1 fns2 :
  Set_delete fn (fns1 ++ fns2) = Set_delete fn fns1 ++ Set_delete fn fns2.
Proof. unfold Set_delete. apply List.filter_app. Qed.

Lemma listeners_on name fn name' (s : State U) :
  listeners name' (room (on name fn s).2) =
  if decide (name = name' ∧ accepts (room s) name = true)
  then Set_add fn (listeners name (room s))
  else listeners name' (room s).
Proof.
  rewrite on_state. destruct (accepts (room s) name); cbn [snd room].
  - rewrite listeners_insert. repeat case_decide; try done; tauto.
  - rewrite decide_False; [done|]. by intros [_ ?].
Qed.

Lemma listeners_remove name fn name' (s : State U) :
  listeners name' (room (remove name fn s).2) =
  if decide (name = name' ∧ accepts (room s) name = true)
  then Set_delete fn (listeners name (room s))
  else listeners name' (room s).
Proof.
  rewrite remove_state. destruct (accepts (room s) name); cbn [snd room].
  - rewrite listeners_insert. repeat case_decide; try done; tauto.
  - rewrite decide_False; [done|]. by intros [_ ?].
Qed.

(** A name that the registry does not accept has no listeners. *)
Lemma listeners_refused name (r : NostrRoom) :
  accepts r name = false → listeners name r = [].
Proof.
  unfold accepts, listeners. intros H.
  destruct (events r !! name) as [fns|] eqn:E; [|done].
  apply Get_Listeners in E. by rewrite E in H.
Qed.

Lemma listeners_prune name name' (s : State U) :
  listeners name' (room (prune name s).2) =
  if decide (name = name') then [] else listeners name' (room s).
Proof.
  rewrite prune_eq.
  destruct (Get (events (room s)) name) eqn:E; cbn [snd room];
    try apply listeners_insert.
  case_decide as Hname; [|done]. subst name'.
  apply listeners_refused. unfold accepts. by rewrite E.
Qed.

(** X2.  [remove] undoes [on]: after registering a function that was not
    registered under the name and removing it again, every name has the
    listeners it had, in the same order.  Removing a function that is not
    registered likewise leaves every name's listeners as they were. *)
Theorem remove_undoes_on name fn (s : State U) :
  fn ∉ listeners name (room s) →
  (∀ name', listeners name' (room (remove name fn (on name fn s).2).2) =
            listeners name' (room s)) ∧
  (∀ name', listeners name' (room (remove name fn s).2) =
            listeners name' (room s)).
Proof.
  intros Hfn. split; intros name'.
  - rewrite (on_state name fn s).
    destruct (accepts (room s) name) eqn:Hacc; cbn [snd].
    + rewrite listeners_remove. cbn [room]. rewrite accepts_insert.
      rewrite !listeners_insert, (decide_True _ _ eq_refl).
      case_decide as Hname; [|by case_decide; [tauto|]].
      destruct Hname as [<- _].
      unfold Set_add. rewrite decide_False by done.
      rewrite Set_delete_app, Set_delete_absent by done.
      unfold Set_delete. simpl. rewrite bool_decide_eq_true_2 by done.
      simpl. by rewrite app_nil_r.
    + rewrite listeners_remove. case_decide as Hname; [|done].
      destruct Hname as [_ Hname]. congruence.
  - rewrite listeners_remove.
    case_decide as Hname; [|done]. destruct Hname as [<- _].
    by apply Set_delete_absent.
Qed.

(** ** Extras: dispatch *)

Lemma getFn_same_listeners name (s : State U) :
  same_listeners s (_getFn_Set name s).2.
Proof.
  rewrite getFn_Set_eq. destruct (accepts (room s) name); [|by repeat split].
  destruct (events (room s) !! name) as [fns|] eqn:E; cbn [snd].
  - by repeat split.
  - repeat split; try done. intros name'. cbn [room]. rewrite listeners_insert.
    case_decide; [|done]. subst name'. unfold listeners. by rewrite E.
Qed.

Lemma plain_wildcard : plain "*" = true.
Proof. by vm_compute. Qed.

Lemma accepts_wildcard (r : NostrRoom) : accepts r "*" = true.
Proof. apply plain_accepts, plain_wildcard. Qed.

Lemma same_listeners_trans (s1 s2 s3 : State U) :
  same_listeners s1 s2 → same_listeners s2 s3 → same_listeners s1 s3.
Proof.
  intros (Ha & ? & ? & ? & ? & ? & ? & ? & ?) (Hb & ? & ? & ? & ? & ? & ? & ? & ?).
  split; [intros name; by rewrite Hb, Ha|]. repeat split; congruence.
Qed.

(** X3.  An emit of a name that the registry accepts and that has no
    listener, in a room without wildcard listeners, returns and calls
    nothing; at most it creates the two empty sets.  An emit of a name that
    the registry does not accept (a name that the object inherits, such as
    "toString") throws a TypeError and changes nothing. *)
Theorem emit_without_listeners n name args (s : State U) :
  (accepts (room s) name = true →
   listeners name (room s) = [] → listeners "*" (room s) = [] →
   (emit body digest (S n) name args s).1 = Returned () ∧
   same_listeners s (emit body digest (S n) name args s).2) ∧
  (accepts (room s) name = false →
   emit body digest (S n) name args s = (Thrown VTypeError, s)).
Proof.
  split.
  - intros Hacc Hname Hall. simpl.
    pose proof (getFn_same_listeners name s) as H1.
    rewrite (bind_returns _ _ (listeners name (room s)))
      by (by rewrite getFn_Set_returns).
    rewrite Hname. simpl. rewrite bind_eq. simpl.
    set (s1 := (_getFn_Set name s).2) in *.
    pose proof (getFn_same_listeners "*" s1) as H2.
    rewrite (bind_returns _ _ (listeners "*" (room s1)))
      by (by rewrite getFn_Set_returns by apply accepts_wildcard).
    destruct H1 as [Hl1 H1']. rewrite Hl1, Hall. simpl.
    split; [done|]. eapply same_listeners_trans; [|exact H2]. by split.
  - intros Hacc. simpl. by rewrite bind_eq, getFn_Set_eq, Hacc.
Qed.

Lemma apply_quiet_user emit_ u args (s : State U) :
  (∀ args, quiet (body u args)) →
  (Function_apply body digest emit_ (UserFn u) args s).1 = Returned () ∧
  trace (Function_apply body digest emit_ (UserFn u) args s).2 =
    trace s ++ [Applied (UserFn u) args].
Proof.
  intros Hq. unfold Function_apply. steps.
  split; [by apply quiet_run|]. by rewrite quiet_run_trace.
Qed.

Lemma for_fns_calls emit_ us args (s : State U) :
  Forall (λ u, ∀ args, quiet (body u args)) us →
  (for_fns body digest emit_ (UserFn <$> us) args s).1 = Returned () ∧
  trace (for_fns body digest emit_ (UserFn <$> us) args s).2 =
    trace s ++ calls us args.
Proof.
  intros Hq. revert s. induction Hq as [| u us Hu Hus IH]; intros s; simpl.
  - by rewrite app_nil_r.
  - destruct (apply_quiet_user emit_ u args s Hu) as [Hret Htr].
    rewrite (bind_returns _ _ ()) by done.
    destruct (IH (Function_apply body digest emit_ (UserFn u) args s).2) as [Hr Ht].
    split; [exact Hr|]. etransitivity; [exact Ht|].
    rewrite Htr, <- app_assoc. done.
Qed.

Lemma for_all_returns emit_ name us args (s : State U) :
  Forall (λ u, ∀ args, quiet (body u args)) us →
  (for_all body digest emit_ name (UserFn <$> us) args s).1 = Returned ().
Proof.
  intros Hq. revert args s. induction Hq as [| u us Hu Hus IH]; intros args s; simpl.
  - done.
  - destruct (apply_quiet_user emit_ u (VString name :: args) s Hu) as [Hret _].
    rewrite (bind_returns _ _ ()) by done. apply IH.
Qed.


(** X17.  Under a name that the registry does not accept, [on], [remove]
    and [emit] throw a TypeError and change nothing, and [once] throws it
    having allocated its closure, which is registered nowhere.  When the
    name is one that the object inherits as a function or an object,
    [prune] gives it a Set of its own, and the registry accepts the name
    from then on. *)
Theorem refused_name_throws n name fn u args (s : State U) :
  accepts (room s) name = false →
  on name fn s = (Thrown VTypeError, s) ∧
  remove name fn s = (Thrown VTypeError, s) ∧
  emit body digest (S n) name args s = (Thrown VTypeError, s) ∧
  (once name u s).1 = Thrown VTypeError ∧
  events (room (once name u s).2) = events (room s) ∧
  (Get (events (room s)) name = Builtin →
   (prune name s).1 = Returned () ∧
   accepts (room (prune name s).2) name = true ∧
   listeners name (room (prune name s).2) = []).
Proof.
  intros Hacc. split; [by rewrite on_state, Hacc|].
  split; [by rewrite remove_state, Hacc|].
  split; [simpl; by rewrite bind_eq, getFn_Set_eq, Hacc|].
  assert (Honce : once name u s =
            (Thrown VTypeError,
             mkState (set_closures (S (closures (room s))) (room s))
                     (store s) (trace s))).
  { rewrite once_state, on_state. cbn [room].
    replace (accepts (set_closures (S (closures (room s))) (room s)) name)
      with (accepts (room s) name) by done.
    by rewrite Hacc. }
  rewrite Honce. split; [done|]. split; [done|].
  intros Hget. rewrite prune_eq, Hget. cbn [fst snd room].
  split; [done|]. split; [apply accepts_insert|].
  by rewrite listeners_insert, decide_True.
Qed.

(** ** Extras: [once] and [prune] *)

Lemma dormant_emit k en u c fuel name args (s : State U) :
  dormant k (OnceFn k en u) c s →
  dormant k (OnceFn k en u) c (emit body digest fuel name args s).2.
Proof.
  set (w := OnceFn k en u). intros Hs.
  refine (proj1 (keeps_emit (dormant k w c) (λ _ fn, fn ≠ w)
                   _ _ _ _ _ _ _ _ fuel name args s Hs)).
  - intros s' name' fns (Hreg & _) Hfns. apply Forall_forall.
    intros fn Hfn ->. by apply (Hreg name' fns).
  - done.
  - intros s' name' fns (Hreg & Hk & Hc) Hfns. split; [|done].
    cbn [room]. intros name'' fns'. unfold set_events. cbn [events].
    rewrite lookup_insert. case_decide.
    + intros [= <-] Hw. rewrite Forall_forall in Hfns. by apply (Hfns w).
    + apply Hreg.
  - intros s' (Hreg & Hk & Hc). split.
    + intros name' u' [= <- _ _]. lia.
    + split; [done|]. simpl. split; [lia|done].
  - by intros s' b (Hreg & Hk & Hc).
  - by intros s' x (Hreg & Hk & Hc).
  - intros s' (Hreg & Hk & Hc). repeat split; simpl; try done.
    rewrite forwards_app. unfold forwards at 2. simpl. lia.
  - intros s' name' fn args' (Hreg & Hk & Hc) Hfn. split.
    + repeat split; simpl; try done. by rewrite forwards_applied.
    + intros u'. repeat split; simpl; try done. by rewrite forwards_other.
Qed.

Lemma dormant_emits k en u c fuel name argss (s : State U) :
  dormant k (OnceFn k en u) c s →
  dormant k (OnceFn k en u) c (emits body digest fuel name argss s).
Proof.
  revert s. induction argss as [| args argss IH]; intros s Hs; simpl; [done|].
  apply IH. by apply dormant_emit.
Qed.

(** X5.  [prune] cancels a pending [once]: when the name is pruned before
    it is emitted, no later emit, of this or any other name, has the
    closure call the function. *)
Theorem prune_cancels_once fuel name u name' argss (s : State U) :
  allocated (room s) →
  let w := OnceFn (closures (room s)) name u in
  let pruned := (prune name (once name u s).2).2 in
  listeners name (room pruned) = [] ∧
  forwards w (trace (emits body digest fuel name' argss pruned)) =
    forwards w (trace s).
Proof.
  intros Halloc w pruned.
  assert (Hfresh : ∀ name'' fns, events (room s) !! name'' = Some fns → w ∉ fns).
  { intros name'' fns Hfns Hw. pose proof (Halloc name'' fns _ _ _ Hfns Hw). lia. }
  assert (Honce :
    (∀ name'' fns, events (room (once name u s).2) !! name'' = Some fns →
                   w ∈ fns → name'' = name) ∧
    closures (room (once name u s).2) = S (closures (room s)) ∧
    trace (once name u s).2 = trace s).
  { rewrite once_state, on_state. cbn [room].
    destruct (accepts _ name); cbn [snd room store trace]; (split; [|done]).
    - intros name'' fns. simpl. rewrite lookup_insert. case_decide; [done|].
      intros Hfns Hw. by destruct (Hfresh name'' fns Hfns).
    - intros name'' fns Hfns Hw. by destruct (Hfresh name'' fns Hfns). }
  destruct Honce as (Hreg & Hcl & Htr).
  split.
  - unfold pruned. by rewrite listeners_prune, decide_True.
  - assert (Hd : dormant (closures (room s)) w (forwards w (trace s)) pruned).
    { unfold pruned. rewrite prune_eq.
      assert (Hcleared : dormant (closures (room s)) w (forwards w (trace s))
                (mkState (set_events (<[name := []]> (events (room (once name u s).2)))
                            (room (once name u s).2))
                         (store (once name u s).2) (trace (once name u s).2))).
      { split; [|split; simpl; [lia|by rewrite Htr]].
        intros name'' fns. simpl. rewrite lookup_insert. case_decide.
        - intros [= <-]. apply not_elem_of_nil.
        - intros Hfns Hw. by destruct (Hreg name'' fns Hfns Hw). }
      destruct (Get (events (room (once name u s).2)) name) eqn:E;
        cbn [snd]; try exact Hcleared.
      split; [|split; [lia|by rewrite Htr]].
      intros name'' fns Hfns Hw.
      pose proof (Hreg name'' fns Hfns Hw) as ->.
      apply Get_Listeners in Hfns. congruence. }
    by destruct (dormant_emits _ _ _ _ fuel name' argss _ Hd) as (_ & _ & ?).
Qed.

Lemma once_registered name u (s : State U) :
  accepts (room s) name = true →
  once name u s =
  (Returned (),
   mkState (set_events
              (<[name := Set_add (OnceFn (closures (room s)) name u)
                           (listeners name (room s))]> (events (room s)))
              (set_closures (S (closures (room s))) (room s)))
           (store s) (trace s)).
Proof.
  intros Hacc. rewrite once_state, on_state. cbn [room store trace].
  replace (accepts (set_closures (S (closures (room s))) (room s)) name)
    with (accepts (room s) name) by done.
  by rewrite Hacc.
Qed.

(** X6.  Unlike [on], [once] never merges two registrations: called twice
    with the same function, under a name that the registry accepts, it
    appends two distinct closures to the listeners of the name. *)
Theorem once_twice_registers_two name u (s : State U) :
  accepts (room s) name = true →
  allocated (room s) →
  let k := closures (room s) in
  listeners name (room (once name u (once name u s).2).2) =
  listeners name (room s) ++ [OnceFn k name u; OnceFn (S k) name u].
Proof.
  intros Hacc Halloc k.
  assert (Hfresh : ∀ j, k ≤ j → OnceFn j name u ∉ listeners name (room s)).
  { intros j Hj Hin. unfold listeners in Hin.
    destruct (events (room s) !! name) as [fns|] eqn:E; simpl in Hin.
    - pose proof (Halloc name fns j name u E Hin). lia.
    - by apply elem_of_nil in Hin. }
  rewrite (once_registered name u s Hacc). cbn [snd].
  rewrite once_registered
    by (eapply accepts_own; simpl; apply lookup_insert_eq).
  cbn [snd room].
  erewrite (listeners_lookup name) by (simpl; apply lookup_insert_eq).
  erewrite (listeners_lookup name) by (simpl; apply lookup_insert_eq).
  cbn [closures set_closures set_events]. fold k.
  unfold Set_add at 2. rewrite decide_False by (by apply Hfresh).
  unfold Set_add. rewrite decide_False.
  - by rewrite <- app_assoc.
  - rewrite elem_of_app, list_elem_of_singleton. intros [Hin | [= Hk]].
    + by apply (Hfresh (S k)); [lia|].
    + lia.
Qed.

(** ** Extras: ingestion *)

Lemma handler_bad_content fuel h event err (s : State U) :
  let_through h (room s) event →
  (plaintext h (room s) event = Failure err ∨
   ∃ text, plaintext h (room s) event = Success text ∧
           JSON_parse h text = Failure err) →
  _eventHandler body digest fuel h event s =
    emit body digest fuel "_error" [err]
         (after (read_effects h (room s) event) s) ∧
  cache (room (_eventHandler body digest fuel h event s).2) = cache (room s).
Proof.
  intros Hgate Hbad.
  assert (Heq : _eventHandler body digest fuel h event s =
    emit body digest fuel "_error" [err]
         (after (read_effects h (room s) event) s)).
  { rewrite gate_open by done. unfold try_catch, _eventHandler_try, _eventHandler_decoded.
    unfold read_effects, plaintext, decode_effects, after, host in *. steps.
    destruct (includes "?iv=" (Event.content event)); steps.
    - destruct Hbad as [Hfail | (text & Hplain & Hparse)].
      + by rewrite Hfail.
      + rewrite Hplain. steps. rewrite Hparse. steps. by rewrite <- app_assoc.
    - destruct Hbad as [Hfail | (text & [= <-] & Hparse)]; [done|].
      rewrite Hparse. by steps. }
  split; [done|]. rewrite Heq.
  by destruct (emit_same_core fuel "_error" [err]
                 (after (read_effects h (room s) event) s)) as (-> & _).
Qed.



(** X16.  With a [cacheSize] of zero or less nothing is ever cached:
    whatever arrives and whenever the decryptions settle, an entry that is
    pushed is dropped at once. *)
Theorem nothing_cached_without_room fuel (jobs : list Job) (s : State U) :
  (RoomConfig.cacheSize (config (room s)) ≤ 0)%Z →
  cache (room s) = [] →
  cache (room (arrivals body digest fuel jobs s)) = [].
Proof.
  revert s. induction jobs as [| j jobs IH]; intros s Hsize Hcache; simpl; [done|].
  destruct (deliver_cache fuel j s) as (Hc & Hcf & _).
  apply IH; [by rewrite Hcf|].
  rewrite Hc, Hcache. destruct (completes (room s) j) as [entry|]; [|done].
  unfold cached. simpl.
  destruct (Z.gtb_spec (Z.of_nat 1) (RoomConfig.cacheSize (config (room s))));
    [done|lia].
Qed.

(** ** Extras: publishing *)

Lemma pub_try_success h eventName payload template text content ev (s : State U) :
  JSON_stringify h eventName payload = Success text →
  sealed h (room s) text = Success content →
  client_publish h (pub_draft digest h (room s) template content) = Success ev →
  pub_try digest h eventName payload template s =
  (Returned (Some ev),
   after ([Stringified eventName payload] ++ seal_effects (room s) text ++
          [Published (pub_draft digest h (room s) template content)]) s).
Proof.
  intros Hs He Hp. unfold pub_try, after, host, sealed, seal_effects in *.
  steps. rewrite Hs. steps.
  destruct (RoomConfig.encryption (config (room s))).
  - steps. rewrite He. steps. rewrite Hp. steps. by rewrite <- !app_assoc.
  - injection He as <-. steps. rewrite Hp. steps. by rewrite <- !app_assoc.
Qed.

Lemma pub_try_room h eventName payload template (s : State U) :
  room (pub_try digest h eventName payload template s).2 = room s.
Proof.
  unfold pub_try, host. steps.
  destruct (JSON_stringify h eventName payload) as [text|err]; steps; [|done].
  destruct (RoomConfig.encryption (config (room s))); steps.
  - destruct (Cipher_encrypt h text (cipher (room s))) as [content|err]; steps; [|done].
    by destruct (client_publish h _) as [ev|err]; steps.
  - by destruct (client_publish h _) as [ev|err]; steps.
Qed.

Lemma pub_same_core fuel h eventName payload template (s : State U) :
  same_core (room s) (room (pub body digest fuel h eventName payload template s).2).
Proof.
  unfold pub. rewrite bind_eq. simpl.
  destruct (connected (room s)); simpl; [|done].
  unfold try_catch.
  pose proof (pub_try_room h eventName payload template s) as Hroom.
  destruct (pub_try digest h eventName payload template s) as [[o|err|] s1];
    simpl in *; try by rewrite Hroom.
  steps.
  set (s2 := mkState (room s1) (store s1) (trace s1 ++ [Console [err]])).
  pose proof (emit_same_core fuel "_error" [err] s2) as H.
  replace (room s2) with (room s) in H by done.
  by destruct (emit body digest fuel "_error" [err] s2) as [[[]|e|] s3].
Qed.

(** X9.  While connected, when the serialization, the encryption (if
    [encryption] is on) and the submission succeed, [pub] resolves with the
    event of the transport, having called the host and nothing else: no
    listener of the room is called and the room is as before. *)
Theorem pub_success fuel h eventName payload template text content ev
    (s : State U) :
  connected (room s) = true →
  JSON_stringify h eventName payload = Success text →
  sealed h (room s) text = Success content →
  client_publish h (pub_draft digest h (room s) template content) = Success ev →
  pub body digest fuel h eventName payload template s =
  (Returned (Some ev),
   after ([Stringified eventName payload] ++ seal_effects (room s) text ++
          [Published (pub_draft digest h (room s) template content)]) s).
Proof.
  intros Hc Hs He Hp. unfold pub. rewrite bind_eq. simpl. rewrite Hc. simpl.
  unfold try_catch. by rewrite (pub_try_success _ _ _ _ text content ev).
Qed.


(** ** Invariants of the room under any listeners *)

Section Reach.
Variable J : NostrRoom → Prop.
Hypothesis J_clear : ∀ r name,
  J r → J (set_events (<[name := []]> (events r)) r).
Hypothesis J_add : ∀ r name fn,
  J r → registrable r fn → home name fn →
  J (set_events (<[name := Set_add fn (listeners name r)]> (events r)) r).
Hypothesis J_delete : ∀ r name fn,
  J r → J (set_events (<[name := Set_delete fn (listeners name r)]> (events r)) r).
Hypothesis J_closures : ∀ r, J r → J (set_closures (S (closures r)) r).
Hypothesis J_disconnect : ∀ r, J r → J (set_connected false r).

Local Abbreviation holds := (preserved (λ s : State U, J (room s))).

Lemma reach_getFn name : holds (_getFn_Set name) (λ _, True).
Proof.
  intros s Hs. rewrite getFn_Set_eq. split; [|done].
  destruct (accepts (room s) name); [|done].
  destruct (events (room s) !! name); simpl; [done|]. by apply J_clear.
Qed.

Lemma reach_on name fn (s : State U) :
  J (room s) → registrable (room s) fn → home name fn →
  J (room (on name fn s).2).
Proof.
  intros Hs Hfn Hhome. rewrite on_state.
  destruct (accepts (room s) name); [|done]. simpl. by apply J_add.
Qed.

Lemma reach_remove name fn : holds (remove name fn) (λ _, True).
Proof.
  intros s Hs. rewrite remove_state. split; [|done].
  destruct (accepts (room s) name); [|done]. by apply J_delete.
Qed.

Lemma reach_prune name : holds (prune name) (λ _, True).
Proof.
  intros s Hs. rewrite prune_eq. split; [|done].
  destruct (Get (events (room s)) name); try done; by apply J_clear.
Qed.

Lemma reach_once name u : holds (once name u) (λ _, True).
Proof.
  intros s Hs. rewrite once_state. split; [|done].
  apply reach_on; simpl; [by apply J_closures | lia | done].
Qed.

Lemma reach_record e : holds (record e) (λ _, True).
Proof. by intros s Hs. Qed.

Lemma reach_leave emit_ :
  (∀ name args, holds (emit_ name args) (λ _, True)) →
  holds (leave digest emit_) (λ _, True).
Proof.
  intros Hemit s Hs. unfold leave. rewrite bind_eq. simpl.
  assert (Hrec : holds (if _sub (room s) then record Unsubscribed else mret ())
                       (λ _, True)).
  { destruct (_sub (room s)); [apply reach_record | by apply keeps_ret]. }
  refine (keeps_bind _ _ _ _ _ Hrec _ s Hs). intros _ _.
  eapply (keeps_bind _ _ _ (λ _, True)).
  - intros s' Hs'. split; [|done]. simpl. by apply J_disconnect.
  - intros _ _. apply Hemit.
Qed.

Lemma reach_run emit_ p :
  (∀ name args, holds (emit_ name args) (λ _, True)) →
  holds (run digest emit_ p) (λ _, True).
Proof.
  intros Hemit. induction p as [| | k IH | x k IH | n u k IH | n u k IH
                                | n u k IH | n k IH | n args k IH | k IH]; simpl.
  - by apply keeps_ret.
  - apply keeps_throw.
  - intros s Hs. by apply IH.
  - eapply (keeps_bind _ _ _ (λ _, True)); [|intros; apply IH]. by intros s Hs.
  - eapply (keeps_bind _ _ _ (λ _, True)); [|intros; apply IH].
    intros s Hs. split; [|done]. by apply reach_on.
  - eapply keeps_bind; [apply reach_once|intros; apply IH].
  - eapply keeps_bind; [apply reach_remove|intros; apply IH].
  - eapply keeps_bind; [apply reach_prune|intros; apply IH].
  - eapply keeps_bind; [apply keeps_attempt, Hemit|intros; apply IH].
  - eapply keeps_bind; [apply keeps_attempt, reach_leave, Hemit|intros; apply IH].
Qed.

Lemma reach_apply emit_ fn args :
  (∀ name args, holds (emit_ name args) (λ _, True)) →
  holds (Function_apply body digest emit_ fn args) (λ _, True).
Proof.
  intros Hemit. unfold Function_apply.
  eapply keeps_bind; [apply reach_record|]. intros _ _.
  destruct fn as [u | k n u].
  - by apply reach_run.
  - eapply keeps_bind; [apply reach_remove|]. intros _ _.
    eapply keeps_bind; [apply reach_record|]. intros _ _.
    by apply reach_run.
Qed.

Lemma reach_for_fns emit_ fns args :
  (∀ name args, holds (emit_ name args) (λ _, True)) →
  holds (for_fns body digest emit_ fns args) (λ _, True).
Proof.
  intros Hemit. induction fns as [| fn fns IH]; simpl.
  - by apply keeps_ret.
  - eapply keeps_bind; [by apply reach_apply|]. intros _ _. apply IH.
Qed.

Lemma reach_for_all emit_ name all args :
  (∀ name args, holds (emit_ name args) (λ _, True)) →
  holds (for_all body digest emit_ name all args) (λ _, True).
Proof.
  intros Hemit. revert args. induction all as [| fn fns IH]; intros args; simpl.
  - by apply keeps_ret.
  - eapply keeps_bind; [by apply reach_apply|]. intros _ _. apply IH.
Qed.

Lemma reach_emit fuel name args : holds (emit body digest fuel name args) (λ _, True).
Proof.
  revert name args. induction fuel as [| n IH]; intros name args; simpl.
  - apply keeps_out_of_fuel.
  - eapply keeps_bind; [apply reach_getFn|]. intros fns _.
    eapply keeps_bind; [by apply reach_for_fns|]. intros _ _.
    eapply keeps_bind; [apply reach_getFn|]. intros all _.
    by apply reach_for_all.
Qed.

Hypothesis J_cache : ∀ r c, J r → J (set_cache c r).
Hypothesis J_connect : ∀ r, J r → J (set_connected true r).
Hypothesis J_sub : ∀ r, J r → J (set_sub true r).

Lemma reach_get_room : holds get_room (λ _, True).
Proof. by intros s Hs. Qed.

Lemma reach_host {A} e (o : Outcome A) : holds (host e o) (λ _, True).
Proof.
  unfold host. eapply keeps_bind; [apply reach_record|]. intros _ _.
  destruct o; [by apply keeps_ret | apply keeps_throw].
Qed.

Lemma reach_set_cache (f : NostrRoom → list CacheEntry) :
  holds (modify_room (λ r, set_cache (f r) r)) (λ _, True).
Proof. intros s Hs. split; [|done]. by apply J_cache. Qed.

Lemma reach_decoded fuel h event content :
  holds (_eventHandler_decoded body digest fuel h event content) (λ _, True).
Proof.
  unfold _eventHandler_decoded.
  eapply keeps_bind; [apply reach_host|]. intros [eventName payload] _.
  eapply keeps_bind; [apply reach_set_cache|]. intros _ _.
  eapply keeps_bind; [apply reach_get_room|]. intros r' _.
  eapply (keeps_bind _ _ _ (λ _, True)).
  { destruct (Z.of_nat _ >? _)%Z; [apply reach_set_cache | by apply keeps_ret]. }
  intros _ _. apply reach_emit.
Qed.

Lemma reach_handler_try fuel h event :
  holds (_eventHandler_try body digest fuel h event) (λ _, True).
Proof.
  unfold _eventHandler_try.
  eapply keeps_bind; [apply reach_get_room|]. intros r _.
  eapply (keeps_bind _ _ _ (λ _, True)).
  { destruct (includes "?iv=" (Event.content event));
      [apply reach_host | by apply keeps_ret]. }
  intros content _. apply reach_decoded.
Qed.

Lemma reach_called fuel h event :
  holds (_eventHandler_called body digest fuel h event) (λ _, True).
Proof.
  unfold _eventHandler_called.
  eapply keeps_bind; [apply reach_get_room|]. intros r _.
  destruct (_ || _ || _).
  { eapply keeps_bind; [apply reach_record|]. intros _ _. by apply keeps_ret. }
  destruct (includes "?iv=" (Event.content event)).
  { eapply keeps_bind; [apply reach_record|]. intros _ _. by apply keeps_ret. }
  eapply (keeps_bind _ _ _ (λ _, True)); [|intros _ _; by apply keeps_ret].
  apply keeps_try_catch; [apply reach_decoded|]. intros err. apply reach_emit.
Qed.

Lemma reach_resumed fuel h event settled :
  holds (_eventHandler_resumed body digest fuel h event settled) (λ _, True).
Proof.
  unfold _eventHandler_resumed.
  apply keeps_try_catch; [|intros err; apply reach_emit].
  eapply (keeps_bind _ _ _ (λ _, True)); [|intros content _; apply reach_decoded].
  destruct settled; [by apply keeps_ret | apply keeps_throw].
Qed.

Lemma reach_handler fuel h event :
  holds (_eventHandler body digest fuel h event) (λ _, True).
Proof.
  unfold _eventHandler.
  eapply keeps_bind; [apply reach_get_room|]. intros r _.
  destruct (_ || _ || _); [apply reach_record|].
  apply keeps_try_catch; [apply reach_handler_try|].
  intros err. apply reach_emit.
Qed.

Lemma reach_pub fuel h eventName payload template :
  holds (pub body digest fuel h eventName payload template) (λ _, True).
Proof.
  unfold pub.
  eapply keeps_bind; [apply reach_get_room|]. intros r _.
  destruct (negb (connected r)); [apply keeps_throw|].
  apply keeps_try_catch.
  - intros s Hs. split; [|done]. by rewrite pub_try_room.
  - intros err.
    eapply keeps_bind; [apply reach_record|]. intros _ _.
    eapply keeps_bind; [apply reach_emit|]. intros _ _. by apply keeps_ret.
Qed.

Lemma reach_perform fuel c (s : State U) :
  J (room s) → J (room (perform body digest fuel c s)).
Proof.
  intros Hs. destruct c; simpl.
  - by apply reach_on.
  - by apply reach_once.
  - by apply reach_remove.
  - by apply reach_prune.
  - by apply reach_emit.
  - apply reach_leave; [|done]. intros name args'. apply reach_emit.
  - by apply reach_pub.
  - unfold _subscribe. rewrite bind_eq. simpl.
    refine (proj1 (keeps_bind (λ s, J (room s)) _ _ (λ _, True) (λ _, True)
                     _ _ s Hs)).
    + apply reach_host.
    + intros _ _ s' Hs'. split; [|done]. by apply J_sub.
  - unfold sub_on_event. rewrite void_state. by apply reach_called.
  - unfold sub_on_settled. rewrite void_state. by apply reach_resumed.
  - unfold sub_on_eose.
    refine (proj1 (keeps_bind (λ s, J (room s)) _ _ (λ _, True) (λ _, True)
                     _ _ s Hs)).
    + intros s' Hs'. split; [|done]. by apply J_connect.
    + intros _ _. apply reach_emit.
Qed.

Lemma reach_performs fuel cs (s : State U) :
  J (room s) → J (room (performs body digest fuel cs s)).
Proof.
  revert s. induction cs as [| c cs IH]; intros s Hs; simpl; [done|].
  by apply IH, reach_perform.
Qed.

End Reach.

(** ** Extras: the room over any sequence of calls *)

Lemma Set_add_NoDup fn fns : NoDup fns → NoDup (Set_add fn fns).
Proof.
  intros Hnd. unfold Set_add. case_decide; [done|].
  apply NoDup_app. split; [done|]. split; [|apply NoDup_singleton].
  intros x Hx ->%list_elem_of_singleton. done.
Qed.

Lemma Set_delete_NoDup fn fns : NoDup fns → NoDup (Set_delete fn fns).
Proof.
  intros Hnd. unfold Set_delete.
  induction Hnd as [| x l Hx Hl IH]; simpl; [constructor|].
  destruct (negb (bool_decide (x = fn))); [|done].
  constructor; [|done]. rewrite list_elem_of_In, filter_In, <- list_elem_of_In.
  tauto.
Qed.

Lemma listeners_NoDup name r : duplicate_free r → NoDup (listeners name r).
Proof.
  intros Hr. unfold listeners.
  destruct (events r !! name) as [fns|] eqn:E; simpl; [by eapply Hr | constructor].
Qed.

Lemma duplicate_free_insert name fns r :
  duplicate_free r → NoDup fns →
  duplicate_free (set_events (<[name := fns]> (events r)) r).
Proof.
  intros Hr Hfns name' fns'. simpl. rewrite lookup_insert.
  case_decide; [by intros [= <-] | apply Hr].
Qed.

Lemma allocated_insert name fns r :
  allocated r → Forall (registrable r) fns →
  allocated (set_events (<[name := fns]> (events r)) r).
Proof.
  intros Hr Hfns name' fns' k n u. simpl. rewrite lookup_insert. case_decide.
  - intros [= <-] Hin. rewrite Forall_forall in Hfns. exact (Hfns _ Hin).
  - apply Hr.
Qed.

Lemma listeners_registrable name r :
  allocated r → Forall (registrable r) (listeners name r).
Proof.
  intros Hr. unfold listeners. apply Forall_forall. intros fn Hin.
  destruct (events r !! name) as [fns|] eqn:E; simpl in Hin.
  - destruct fn as [u | k n u]; [done|]. by apply (Hr name fns k n u).
  - by apply elem_of_nil in Hin.
Qed.

Lemma homed_insert name fns r :
  homed r → Forall (home name) fns →
  homed (set_events (<[name := fns]> (events r)) r).
Proof.
  intros Hr Hfns name' fns'. simpl. rewrite lookup_insert.
  case_decide; [by intros [= <-]; subst | apply Hr].
Qed.

Lemma listeners_homed name r : homed r → Forall (home name) (listeners name r).
Proof.
  intros Hr. unfold listeners.
  destruct (events r !! name) as [fns|] eqn:E; simpl; [by eapply Hr | constructor].
Qed.

Lemma homed_new loaded_at secret config :
  homed (NostrRoom_new digest loaded_at secret config).
Proof. intros name fns. simpl. by rewrite lookup_empty. Qed.

Lemma homed_performs fuel cs (s : State U) :
  homed (room s) → homed (room (performs body digest fuel cs s)).
Proof.
  apply (reach_performs homed); try done.
  - intros r name Hr. apply homed_insert; [done|constructor].
  - intros r name fn Hr _ Hfn. apply homed_insert; [done|].
    by apply Forall_Set_add, listeners_homed.
  - intros r name fn Hr. apply homed_insert; [done|].
    by apply Forall_Set_delete, listeners_homed.
Qed.

(** X13.  Whatever the application calls and the transport signals, and
    whatever the listeners do, the registry of a room stays sound: no set
    holds a function twice, every closure in it was allocated by [once],
    and every closure is registered under the name it was made for. *)
Theorem registry_stays_sound fuel cs loaded_at secret config x :
  let s := performs body digest fuel cs
             (mkState (NostrRoom_new digest loaded_at secret config) x []) in
  duplicate_free (room s) ∧ allocated (room s) ∧ homed (room s).
Proof.
  intros s. split; [|split].
  - refine (reach_performs duplicate_free _ _ _ _ _ _ _ _ fuel cs _ _).
    + intros r name Hr. apply duplicate_free_insert; [done|constructor].
    + intros r name fn Hr _ _. apply duplicate_free_insert; [done|].
      by apply Set_add_NoDup, listeners_NoDup.
    + intros r name fn Hr. apply duplicate_free_insert; [done|].
      by apply Set_delete_NoDup, listeners_NoDup.
    + done.
    + done.
    + done.
    + done.
    + done.
    + intros name fns. simpl. by rewrite lookup_empty.
  - refine (reach_performs allocated _ _ _ _ _ _ _ _ fuel cs _ _).
    + intros r name Hr. apply allocated_insert; [done|constructor].
    + intros r name fn Hr Hfn _. apply allocated_insert; [done|].
      by apply Forall_Set_add, listeners_registrable.
    + intros r name fn Hr. apply allocated_insert; [done|].
      by apply Forall_Set_delete, listeners_registrable.
    + intros r Hr name fns k n u Hfns Hin. simpl in *.
      pose proof (Hr name fns k n u Hfns Hin). lia.
    + done.
    + done.
    + done.
    + done.
    + apply allocated_new.
  - apply homed_performs, homed_new.
Qed.

Lemma leave_same_core emit_ (s : State U) :
  (∀ name args s', same_core (room s') (room (emit_ name args s').2)) →
  same_core (room s) (room (leave digest emit_ s).2).
Proof.
  intros Hemit. unfold leave. rewrite bind_eq. simpl.
  destruct (_sub (room s)); steps.
  - set (s1 := mkState (set_connected false (room s)) (store s)
                       (trace s ++ [Unsubscribed])).
    apply (Hemit "_leave" [VBuff (id digest (room s))] s1).
  - set (s1 := mkState (set_connected false (room s)) (store s) (trace s)).
    apply (Hemit "_leave" [VBuff (id digest (room s))] s1).
Qed.

Lemma registry_only_same_core (s s' : State U) :
  registry_only s s' → same_core (room s) (room s').
Proof. by intros (? & ? & ? & _). Qed.

(** What a call does to the cache, the configuration and the key: only a
    job that completes the decoding of an event changes the cache, by
    pushing its entry. *)
Lemma perform_core fuel c (s : State U) :
  let r' := room (perform body digest fuel c s) in
  config r' = config (room s) ∧ cipher r' = cipher (room s) ∧
  (cache r' = cache (room s) ∨
   ∃ entry,
     cache r' = cached (RoomConfig.cacheSize (config (room s)))
                       (cache (room s)) entry).
Proof.
  assert (Hcore : ∀ r', same_core (room s) r' →
            config r' = config (room s) ∧ cipher r' = cipher (room s) ∧
            (cache r' = cache (room s) ∨
             ∃ entry,
               cache r' = cached (RoomConfig.cacheSize (config (room s)))
                                 (cache (room s)) entry)).
  { intros r' (? & ? & ?). split; [done|]. split; [done|]. by left. }
  assert (Hjob : ∀ j,
            let r' := room (deliver body digest fuel j s).2 in
            config r' = config (room s) ∧ cipher r' = cipher (room s) ∧
            (cache r' = cache (room s) ∨
             ∃ entry,
               cache r' = cached (RoomConfig.cacheSize (config (room s)))
                                 (cache (room s)) entry)).
  { intros j. destruct (deliver_cache fuel j s) as (Hc & Hcf & Hci).
    split; [done|]. split; [done|].
    destruct (completes (room s) j) as [entry|]; [right; by exists entry|by left]. }
  destruct c; simpl.
  - apply Hcore, registry_only_same_core, on_registry_only.
  - apply Hcore, registry_only_same_core, once_registry_only.
  - apply Hcore, registry_only_same_core, remove_registry_only.
  - apply Hcore, registry_only_same_core, prune_registry_only.
  - apply Hcore, emit_same_core.
  - apply Hcore, leave_same_core. intros. apply emit_same_core.
  - apply Hcore, pub_same_core.
  - apply Hcore. unfold _subscribe, host. steps.
    by destruct (client_sub h _); steps.
  - apply (Hjob (Arrives h event)).
  - apply (Hjob (Settles h event settled)).
  - apply Hcore. unfold sub_on_eose. steps.
    apply (emit_same_core fuel "_connected" [VRoom]
             (mkState (set_connected true (room s)) (store s) (trace s))).
Qed.

Lemma cached_within cacheSize c entry :
  (0 ≤ cacheSize)%Z → (Z.of_nat (length c) ≤ cacheSize)%Z →
  (Z.of_nat (length (cached cacheSize c entry)) ≤ cacheSize)%Z.
Proof.
  intros Hpos Hlen. unfold cached. rewrite length_app. simpl.
  destruct (Z.gtb_spec (Z.of_nat (length c + 1)) cacheSize);
    [|rewrite length_app; simpl; lia].
  destruct c; simpl in *; [lia|]. rewrite length_app. simpl. lia.
Qed.

(** X12.  The cache of a room whose [cacheSize] is not negative is within
    [cacheSize] at all times: after any sequence of calls and signals, with
    events accepted, dropped or failing, and whatever the listeners do. *)
Theorem cache_always_within_bound fuel cs (s : State U) :
  (0 ≤ RoomConfig.cacheSize (config (room s)))%Z →
  within_bound (room s) →
  within_bound (room (performs body digest fuel cs s)).
Proof.
  revert s. induction cs as [| c cs IH]; intros s Hpos Hs; simpl; [done|].
  destruct (perform_core fuel c s) as (Hcf & _ & Hc).
  apply IH; unfold within_bound in *; rewrite Hcf; [done|].
  destruct Hc as [-> | (entry & ->)]; [done|].
  by apply cached_within.
Qed.

(** X14.  Nothing that is called or signalled changes the configuration,
    the key or the identifier of a room. *)
Theorem identity_never_changes fuel cs (s : State U) :
  let s' := performs body digest fuel cs s in
  config (room s') = config (room s) ∧
  cipher (room s') = cipher (room s) ∧
  id digest (room s') = id digest (room s).
Proof.
  revert s. induction cs as [| c cs IH]; intros s; simpl; [done|].
  destruct (perform_core fuel c s) as (Hcf & Hci & _).
  destruct (IH (perform body digest fuel c s)) as (Hcf' & Hci' & _).
  assert (Hcipher : cipher (room (performs body digest fuel cs
                                    (perform body digest fuel c s))) =
                    cipher (room s)) by congruence.
  split; [congruence|]. split; [done|]. unfold id. by rewrite Hcipher.
Qed.

(** X10.  After [leave] the room is disconnected, whatever its [_leave]
    listeners do, throwing included; its cache, configuration and key are
    as before, and [pub] throws "Not connected to room!". *)
Theorem leave_disconnects fuel fuel' h eventName payload template (s : State U) :
  let gone := (leave digest (emit body digest fuel) s).2 in
  connected (room gone) = false ∧
  same_core (room s) (room gone) ∧
  pub body digest fuel' h eventName payload template gone =
    (Thrown (VError "Not connected to room!"), gone).
Proof.
  intros gone.
  assert (Hoff : connected (room gone) = false).
  { unfold gone, leave. rewrite bind_eq. simpl.
    assert (Hemit : ∀ s1 : State U, connected (room s1) = false →
              connected (room (emit body digest fuel "_leave"
                                 [VBuff (id digest (room s))] s1).2) = false).
    { intros s1 Hs1.
      by apply (reach_emit (λ r, connected r = false)). }
    destruct (_sub (room s)); steps; by apply Hemit. }
  split; [done|]. split.
  - apply leave_same_core. intros. apply emit_same_core.
  - unfold pub. rewrite bind_eq. simpl. by rewrite Hoff.
Qed.

(** ** Extras: connecting *)

(** A name that has its Set keeps it, and a registry that is homed stays
    so, whatever is dispatched. *)
Lemma kept_insert name name' fns r :
  is_Some (events r !! name) ∧ homed r → Forall (home name') fns →
  is_Some (events (set_events (<[name' := fns]> (events r)) r) !! name) ∧
  homed (set_events (<[name' := fns]> (events r)) r).
Proof.
  intros [Hown Hr] Hfns. split; [|by apply homed_insert].
  simpl. rewrite lookup_insert. by case_decide.
Qed.

Ltac kept_frame :=
  first [ by (intros; apply kept_insert; [|constructor])
        | by (intros ? ? ? [? ?] ? ?; apply kept_insert;
              [|apply Forall_Set_add; [|apply listeners_homed]])
        | by (intros ? ? ? [? ?]; apply kept_insert;
              [|apply Forall_Set_delete, listeners_homed])
        | done ].

Lemma kept_getFn name name' (s : State U) :
  is_Some (events (room s) !! name) ∧ homed (room s) →
  is_Some (events (room (_getFn_Set name' s).2) !! name) ∧
  homed (room (_getFn_Set name' s).2).
Proof.
  intros Hs.
  refine (proj1 (reach_getFn (λ r, is_Some (events r !! name) ∧ homed r)
                   _ name' s Hs)); kept_frame.
Qed.

Lemma kept_apply n name fn args (s : State U) :
  is_Some (events (room s) !! name) ∧ homed (room s) →
  let s' := (Function_apply body digest (emit body digest n) fn args s).2 in
  is_Some (events (room s') !! name) ∧ homed (room s').
Proof.
  intros Hs.
  refine (proj1 (reach_apply (λ r, is_Some (events r !! name) ∧ homed r)
                   _ _ _ _ _ (emit body digest n) fn args _ s Hs));
    try kept_frame.
  intros name' args'.
  apply (reach_emit (λ r, is_Some (events r !! name) ∧ homed r)); kept_frame.
Qed.

Section Quiet.
Hypothesis all_quiet : ∀ u args, quiet (body u args).

Lemma quiet_apply emit_ name fn args (s : State U) :
  home name fn → is_Some (events (room s) !! name) →
  (Function_apply body digest emit_ fn args s).1 = Returned () ∧
  connected (room (Function_apply body digest emit_ fn args s).2) =
    connected (room s).
Proof.
  intros Hhome [fns Hown]. destruct fn as [u | k n u].
  - unfold Function_apply. steps.
    split; [by apply quiet_run|]. by rewrite quiet_run_connected.
  - simpl in Hhome. subst n. rewrite Function_apply_once.
    set (s1 := mkState (room s) (store s) (trace s ++ [Applied (OnceFn k name u) args])).
    assert (Hacc : accepts (room s1) name = true) by (by apply (accepts_own _ _ fns)).
    rewrite (bind_returns _ _ ()) by (by apply remove_returns). steps.
    split; [by apply quiet_run|]. rewrite quiet_run_connected by done.
    simpl. by destruct (remove_registry_only name (OnceFn k name u) s1)
      as (_ & _ & _ & -> & _).
Qed.

Lemma quiet_for_fns n name fns args (s : State U) :
  Forall (home name) fns →
  is_Some (events (room s) !! name) ∧ homed (room s) →
  let s' := (for_fns body digest (emit body digest n) fns args s).2 in
  (for_fns body digest (emit body digest n) fns args s).1 = Returned () ∧
  connected (room s') = connected (room s) ∧
  homed (room s').
Proof.
  intros Hfns. revert s. induction Hfns as [| fn fns Hfn Hfns IH]; intros s Hs;
    simpl; [by destruct Hs|].
  destruct (quiet_apply (emit body digest n) name fn args s Hfn (proj1 Hs))
    as [Hret Hc].
  rewrite (bind_returns _ _ ()) by done.
  destruct (IH _ (kept_apply n name fn args s Hs)) as (Hr & Hc' & Hh).
  split; [exact Hr|]. split; [|exact Hh]. etransitivity; [exact Hc'|exact Hc].
Qed.

Lemma quiet_for_all n name all args (s : State U) :
  Forall (home "*") all →
  is_Some (events (room s) !! "*") ∧ homed (room s) →
  let s' := (for_all body digest (emit body digest n) name all args s).2 in
  (for_all body digest (emit body digest n) name all args s).1 = Returned () ∧
  connected (room s') = connected (room s) ∧
  homed (room s').
Proof.
  intros Hall. revert args s.
  induction Hall as [| fn fns Hfn Hfns IH]; intros args s Hs;
    simpl; [by destruct Hs|].
  destruct (quiet_apply (emit body digest n) "*" fn (VString name :: args) s
              Hfn (proj1 Hs)) as [Hret Hc].
  rewrite (bind_returns _ _ ()) by done.
  destruct (IH (VString name :: args) _
              (kept_apply n "*" fn (VString name :: args) s Hs))
    as (Hr & Hc' & Hh).
  split; [exact Hr|]. split; [|exact Hh]. etransitivity; [exact Hc'|exact Hc].
Qed.

(** The Set of a name that the registry accepts is there once [_getFn]
    has returned. *)
Lemma getFn_Set_own name (s : State U) :
  accepts (room s) name = true → homed (room s) →
  is_Some (events (room (_getFn_Set name s).2) !! name) ∧
  homed (room (_getFn_Set name s).2).
Proof.
  intros Hacc Hr. rewrite getFn_Set_eq, Hacc.
  destruct (events (room s) !! name) as [fns|] eqn:E; cbn [snd].
  - by rewrite E.
  - split; [simpl; by rewrite lookup_insert_eq|].
    apply homed_insert; [done|constructor].
Qed.

Lemma quiet_emit n name args (s : State U) :
  accepts (room s) name = true → homed (room s) →
  let s' := (emit body digest (S n) name args s).2 in
  (emit body digest (S n) name args s).1 = Returned () ∧
  connected (room s') = connected (room s) ∧
  homed (room s').
Proof.
  intros Hacc Hr. simpl.
  rewrite (bind_returns _ _ (listeners name (room s)))
    by (by rewrite getFn_Set_returns).
  set (s1 := (_getFn_Set name s).2).
  pose proof (getFn_Set_own name s Hacc Hr) as Hs1. fold s1 in Hs1.
  destruct (quiet_for_fns n name (listeners name (room s)) args s1
              (listeners_homed name _ Hr) Hs1) as (Hr1 & Hc1 & Hh1).
  rewrite (bind_returns _ _ ()) by done.
  set (s2 := (for_fns body digest (emit body digest n)
                (listeners name (room s)) args s1).2) in *.
  rewrite (bind_returns _ _ (listeners "*" (room s2)))
    by (by rewrite getFn_Set_returns by apply accepts_wildcard).
  set (s3 := (_getFn_Set "*" s2).2).
  pose proof (getFn_Set_own "*" s2 (accepts_wildcard _) Hh1) as Hs3. fold s3 in Hs3.
  destruct (quiet_for_all n name (listeners "*" (room s2)) args s3
              (listeners_homed "*" _ Hh1) Hs3) as (Hr2 & Hc2 & Hh2).
  split; [exact Hr2|]. split; [|exact Hh2]. etransitivity; [exact Hc2|].
  destruct (getFn_same_listeners "*" s2) as (_ & _ & _ & _ & Hc3 & _).
  destruct (getFn_same_listeners name s) as (_ & _ & _ & _ & Hc0 & _).
  fold s3 in Hc3. fold s1 in Hc0. congruence.
Qed.

End Quiet.

Lemma plain_lifecycle :
  plain "_connected" = true ∧ plain "_error" = true ∧ plain "_leave" = true.
Proof. by vm_compute. Qed.

(** X11.  With listeners that are quiet, in a room whose closures are
    registered where [once] put them, the end of the stored events connects
    the room, and from then on [pub] always resolves, with the event of the
    transport or with undefined: it no longer throws. *)
Theorem eose_connects n m h eventName payload template (s : State U) :
  (∀ u args, quiet (body u args)) →
  homed (room s) →
  let ready := (sub_on_eose body digest (S n) s).2 in
  (sub_on_eose body digest (S n) s).1 = Returned () ∧
  connected (room ready) = true ∧
  ∃ o, (pub body digest (S m) h eventName payload template ready).1 = Returned o.
Proof.
  intros all_quiet Hhomed ready.
  destruct plain_lifecycle as (Hconnected & Herror & _).
  assert (Heose : (sub_on_eose body digest (S n) s).1 = Returned () ∧
                  connected (room ready) = true ∧ homed (room ready)).
  { unfold ready, sub_on_eose. rewrite bind_eq. cbn [modify_room].
    apply (quiet_emit all_quiet n "_connected" [VRoom]
             (mkState (set_connected true (room s)) (store s) (trace s)));
      [by apply plain_accepts | done]. }
  destruct Heose as (Hret & Hon & Hready). split; [done|]. split; [done|].
  unfold pub. rewrite bind_eq. unfold get_room. rewrite Hon. cbn [negb].
  unfold try_catch.
  pose proof (pub_try_no_fuel h eventName payload template ready) as Hfuel.
  pose proof (pub_try_room h eventName payload template ready) as Hroom.
  destruct (pub_try digest h eventName payload template ready) as [[o|err|] s1];
    [by exists o | | done].
  rewrite bind_eq. cbn [record]. rewrite bind_eq.
  destruct (quiet_emit all_quiet m "_error" [err]
              (mkState (room s1) (store s1) (trace s1 ++ [Console [err]])))
    as [Hr _]; [by apply plain_accepts | simpl in *; by rewrite Hroom |].
  destruct (emit body digest (S m) "_error" [err] _) as [c s2].
  simpl in Hr. subst c. by exists None.
Qed.

End Properties.

(** * The statements on the scenarios *)

Import Scenario.

(** C1.  Three listeners, one of "x" and two of "*", and one emit of "x":
    the listener of "x" is called first, with the arguments of the emit;
    the first wildcard listener is called with the name prepended once, the
    second with the name prepended twice. *)
Theorem emit_prepends_name_again_for_each_wildcard :
  let envelope := VEvent (event_from "bob" "{x}") in
  trace (emit body digest 1 "x" [payload; envelope] two_wildcards).2 =
  [ Applied (UserFn 0) [payload; envelope];
    Applied (UserFn 1) [VString "x"; payload; envelope];
    Applied (UserFn 2) [VString "x"; VString "x"; payload; envelope] ].
Proof. vm_compute. reflexivity. Qed.

Ltac accept_document :=
  split; [split; [by right | by split]
         | split; [by exists "{x}" | done]].

(** C2 as stated fails.  Three accepted events arrive at a cache of two,
    the first with an encrypted content whose decryption settles after the
    other two have arrived: the cache ends with the entries of the third
    and of the first event, not with those of the second and the third. *)
Lemma cache_not_in_arrival_order :
  let entry event : CacheEntry := ("x", payload, event) in
  (0 < RoomConfig.cacheSize (config (room small)))%Z ∧
  Forall2 (λ a e, accepted a.1 (room small) a.2 e) three_events
    [entry sealed_ann; entry (event_from "bob" "{x}");
     entry (event_from "cat" "{x}")] ∧
  cache (room (arrivals body digest 1 interleaved small)) =
    [entry (event_from "cat" "{x}"); entry sealed_ann] ∧
  cache (room (arrivals body digest 1 interleaved small)) ≠
    [entry (event_from "bob" "{x}"); entry (event_from "cat" "{x}")].
Proof.
  intros entry. split; [done|]. split.
  - repeat (constructor; [accept_document|]). constructor.
  - by vm_compute.
Qed.

(** The same jobs: the cache holds the last two entries in the order in
    which they were pushed.  The three events with handlers that are not
    interrupted: the last two in the order of arrival. *)
Lemma cache_bounded_fifo_witness :
  let entry event : CacheEntry := ("x", payload, event) in
  (0 < RoomConfig.cacheSize (config (room small)))%Z ∧
  cache (room (arrivals body digest 1 interleaved small)) =
    [entry (event_from "cat" "{x}"); entry sealed_ann] ∧
  omap (completes (room small)) (uninterrupted (room small) three_events) =
    [entry sealed_ann; entry (event_from "bob" "{x}");
     entry (event_from "cat" "{x}")].
Proof.
  intros entry. split; [done|].
  destruct (cache_bounded_fifo body digest 1 interleaved small)
    as (_ & _ & Hlast & _); [done | done |].
  destruct (cache_bounded_fifo body digest 1
              (uninterrupted (room small) three_events) small)
    as (_ & _ & _ & Harrival); [done | done |].
  split.
  - destruct Hlast as [-> _]; by vm_compute.
  - apply (Harrival three_events); [done|].
    repeat (constructor; [accept_document|]). constructor.
Defined.

(** The room drops its own event; a room that allows echoes caches and
    dispatches it. *)
Lemma gate_drops_silently_witness :
  let mine := event_from "me" "{x}" in
  (∃ flags,
     _eventHandler body digest 1 sound_host mine fresh =
     (Returned (), mkState (room fresh) (store fresh) (trace fresh ++ [Console flags]))) ∧
  _eventHandler body digest 1 sound_host mine echoing =
    try_catch (emit body digest 1 "x" [payload; VEvent mine])
              (λ err, emit body digest 1 "_error" [err])
              (stored mine "{x}" ("x", payload, mine) echoing).
Proof.
  intros mine. split.
  - apply (proj1 (gate_drops_silently body digest 1 sound_host mine fresh)).
    left. by split.
  - by apply (proj2 (gate_drops_silently body digest 1 sound_host mine echoing)).
Defined.

(** A room just constructed is not connected. *)
Lemma pub_requires_connection_witness :
  connected (room fresh) = false ∧
  pub body digest 1 sound_host "x" JNull EventTemplate.empty fresh =
  (Thrown (VError "Not connected to room!"), fresh).
Proof.
  split; [done|]. by apply pub_requires_connection.
Defined.

(** C6 as stated fails: the serializer fails while the room is connected,
    an [_error] listener throws, and [pub] throws instead of resolving with
    undefined. *)
Lemma pub_failure_rejects :
  connected (room online_throwing) = true ∧
  JSON_stringify failing_host "x" JNull = Failure (VError "circular structure") ∧
  (pub body digest 1 failing_host "x" JNull EventTemplate.empty online_throwing).1
    = Thrown (VError "listener failed") ∧
  (pub body digest 1 failing_host "x" JNull EventTemplate.empty online_throwing).1
    ≠ Returned None.
Proof. vm_compute. repeat split; done. Qed.

(** The same failure with an [_error] listener that returns. *)
Lemma pub_failure_reported_witness :
  connected (room online_listening) = true ∧
  JSON_stringify failing_host "x" JNull = Failure (VError "circular structure") ∧
  (pub body digest 1 failing_host "x" JNull EventTemplate.empty online_listening).1
    = Returned None.
Proof.
  split; [done|]. split; [done|].
  destruct (pub_failure_reported body digest 1 failing_host "x" JNull
              EventTemplate.empty (VError "circular structure")
              [Stringified "x" JNull] online_listening)
    as (_ & Hreturns & _).
  - done.
  - by apply serialization_fails.
  - apply Hreturns. by vm_compute.
Defined.

(** A publication with no configured and no template tags. *)
Lemma pub_tags_witness :
  let result := pub body digest 1 sound_host "x" JNull EventTemplate.empty online in
  ∃ ev text draft,
    result.1 = Returned (Some ev) ∧
    trace result.2 = trace online ++ [Stringified "x" JNull] ++
                     seal_effects (room online) text ++ [Published draft] ∧
    Draft.tags draft = [["h"; "736563726574"]; ["expiration"; "86401000"]].
Proof.
  intros result.
  set (ev := Event.mk "id" "me" 1000 21111
               [["h"; "736563726574"]; ["expiration"; "86401000"]] "?iv={x}" "ok").
  assert (Hresult : result = (Returned (Some ev), result.2)).
  { apply pair_of_fst. by vm_compute. }
  destruct (pub_tags body digest 1 sound_host "x" JNull EventTemplate.empty ev
              online result.2 Hresult)
    as (text & draft & Htrace & _ & _ & Htags & _).
  exists ev, text, draft. split; [by vm_compute|]. split; [done|].
  rewrite Htags. by vm_compute.
Defined.





(** ** Further statements on the scenarios *)

(** A function that is not registered yet. *)
Lemma remove_undoes_on_witness :
  listeners "x" (room (remove "x" (UserFn 0) (on "x" (UserFn 0) fresh).2).2) =
  listeners "x" (room fresh).
Proof.
  apply (remove_undoes_on "x" (UserFn 0) fresh).
  replace (listeners "x" (room fresh)) with (@nil Fn) by (by vm_compute).
  apply not_elem_of_nil.
Defined.

(** A room just constructed has no listeners; it accepts "x" and does not
    accept "toString". *)
Lemma emit_without_listeners_witness :
  (emit body digest 1 "x" [payload] fresh).1 = Returned () ∧
  trace (emit body digest 1 "x" [payload] fresh).2 = [] ∧
  emit body digest 1 "toString" [payload] fresh = (Thrown VTypeError, fresh).
Proof.
  destruct (emit_without_listeners body digest 0 "x" [payload] fresh)
    as [Hx _].
  destruct (emit_without_listeners body digest 0 "toString" [payload] fresh)
    as [_ Hthrows].
  destruct Hx as (Hret & _ & _ & _ & _ & _ & _ & _ & _ & Htrace);
    [by vm_compute | by vm_compute | by vm_compute |].
  split; [done|]. split; [done|]. apply Hthrows. by vm_compute.
Defined.


(** A room just constructed does not accept "toString"; once pruned, the
    name takes a listener. *)
Lemma refused_name_throws_witness :
  on "toString" (UserFn 0) fresh = (Thrown VTypeError, fresh) ∧
  emit body digest 1 "toString" [payload] fresh = (Thrown VTypeError, fresh) ∧
  listeners "toString"
    (room (on "toString" (UserFn 0) (prune "toString" fresh).2).2) = [UserFn 0].
Proof.
  destruct (refused_name_throws body digest 0 "toString" (UserFn 0) 0 [payload]
              fresh) as (Hon & _ & Hemit & _ & _ & Hprune); [by vm_compute|].
  split; [done|]. split; [done|].
  destruct Hprune as (_ & Hacc & _); by vm_compute.
Defined.

(** A pending [once] that is pruned: three emits call nothing through it. *)
Lemma prune_cancels_once_witness :
  forwards (OnceFn 0 "x" 0)
    (trace (emits body digest 2 "x" [[payload]; [payload]; [payload]]
              (prune "x" (once "x" 0 quiet_ahead).2).2)) = 0.
Proof.
  destruct (prune_cancels_once body digest 2 "x" 0 "x"
              [[payload]; [payload]; [payload]] quiet_ahead) as [_ Hnone].
  - apply allocated_on, allocated_new.
  - etransitivity; [exact Hnone | by vm_compute].
Defined.

Lemma once_twice_registers_two_witness :
  listeners "x" (room (once "x" 0 (once "x" 0 fresh).2).2) =
  [OnceFn 0 "x" 0; OnceFn 1 "x" 0].
Proof.
  etransitivity.
  - apply (once_twice_registers_two "x" 0 fresh); [by vm_compute|].
    apply allocated_new.
  - by vm_compute.
Defined.



Lemma pub_success_witness :
  (pub body digest 1 sound_host "x" (JNum 7) EventTemplate.empty online).1 =
  Returned (Some published).
Proof.
  rewrite (pub_success body digest 1 sound_host "x" (JNum 7) EventTemplate.empty
             "{x}" "?iv={x}" published online); by vm_compute.
Defined.

(** A [_connected] listener that registers a wildcard listener. *)
Lemma eose_connects_witness :
  connected (room (sub_on_eose quiet_body digest 1 waiting).2) = true ∧
  ∃ o, (pub quiet_body digest 1 failing_host "x" JNull EventTemplate.empty
          (sub_on_eose quiet_body digest 1 waiting).2).1 = Returned o.
Proof.
  destruct (eose_connects quiet_body digest 0 0 failing_host "x" JNull
              EventTemplate.empty waiting) as (_ & Hon & Hpub).
  - intros u args. destruct u as [|[|u]]; [done | | done].
    split; [by vm_compute | done].
  - apply (homed_performs body digest 0 [DoOn "_connected" 1] fresh),
      homed_new.
  - by split.
Defined.

(** Four events into a cache of two, between other calls; the content of
    the first is encrypted and its handler resumes after the second. *)
Lemma cache_always_within_bound_witness :
  within_bound
    (room (performs body digest 2
             [ GotEose; DoOn "x" 3; GotEvent sound_host sealed_ann;
               GotEvent sound_host (event_from "bob" "junk");
               Settled sound_host sealed_ann (Success "{x}");
               GotEvent sound_host (event_from "bob" "{x}");
               DoEmit "x" [payload];
               GotEvent sound_host (event_from "cat" "{x}"); DoLeave ]
             small)).
Proof.
  apply cache_always_within_bound; by vm_compute.
Defined.


(** Three accepted events into a room whose [cacheSize] is zero. *)
Lemma nothing_cached_without_room_witness :
  cache (room (arrivals body digest 1 interleaved cacheless)) = [].
Proof. by apply (nothing_cached_without_room body digest 1 interleaved cacheless). Defined.
